(** * The operator dispatch registry of aten/src/ATen/core/dispatch/Dispatcher.cpp

    A shallow embedding of [c10::Dispatcher]: the registry of operator
    definitions, kernel implementations, backend fallbacks and registration
    listeners, together with the deregistration closures handed back to the
    registration sites.

    The member functions of [Dispatcher] are written in a small state and
    exception monad that also records the observable effects (listener
    callbacks with the registry state they observe, and the acquisition and
    release of [mutex_]).  An exception leaves the mutations performed before
    the throw in place, exactly as in C++. *)

From stdpp Require Import base option list gmap strings.

(** ** Identity types *)

(** [OperatorName]: the pair built by [{name, overload_name}]. *)
Definition OperatorName : Type := string * string.

(** [DispatchKey] is an enumeration with an 8 bit representation
    ([static_cast<uint8_t>] in [checkInvariants]); its first value is
    [DispatchKey::Undefined] and [DispatchKey::NumDispatchKeys] is one past
    the last one. *)
Definition DispatchKey : Type := nat.
Definition Undefined : DispatchKey := 0.

(** An enumeration; the values are kept as their integer codes since the
    enumerators are declared outside Dispatcher.cpp. *)
Definition AliasAnalysisKind : Type := nat.

(** Identity of a node of [std::list<OperatorDef>]: what an
    [OperatorHandle] (its [operatorIterator_]) points to. *)
Definition OperatorHandle : Type := nat.

(** Identity of a node of an operator's kernel list: the
    [std::list<KernelEntry>::iterator] captured by the deregistration
    closure of [registerImpl]. *)
Definition KernelHandle : Type := nat.

(** Identity of an [OpRegistrationListener] object. *)
Definition ListenerId : Type := nat.

(** ** Collaborators *)

(** Modelled from the spec: [FunctionSchema] is declared in a header that is
    not part of Dispatcher.cpp.  It "must support structural equality and
    expose an alias-analysis-kind value with a distinguished
    default/unspecified marker".  The signature is kept as its text; the
    alias-analysis kind is optional, [None] being the unspecified marker. *)
Record FunctionSchema := mkFunctionSchema {
  schema_name : OperatorName;
  schema_signature : string;
  alias_kind_ : option AliasAnalysisKind
}.

(** Modelled from the spec: [FunctionSchema::operator_name()], the name and
    overload name of the schema. *)
Definition operator_name (s : FunctionSchema) : OperatorName := schema_name s.

(** Modelled from the spec: [operator==] on schemas is the structural
    equality of name and signature; the alias-analysis kind is compared
    separately, by [checkSchemaCompatibility]. *)
Definition schema_eqb (a b : FunctionSchema) : bool :=
  bool_decide (schema_name a = schema_name b)
  && bool_decide (schema_signature a = schema_signature b).

(** Modelled from the spec: [FunctionSchema::isDefaultAliasAnalysisKind()],
    whether the kind carries the default/unspecified marker. *)
Definition isDefaultAliasAnalysisKind (s : FunctionSchema) : bool :=
  match alias_kind_ s with None => true | Some _ => false end.

(** Modelled from the spec: a kernel is "an opaque callable plus a boolean
    is-trivial-pass-through flag".  [callable] is the identity of the
    callable, [None] for a kernel object that owns none. *)
Record KernelFunction := mkKernelFunction {
  callable : option nat;
  isFallthrough : bool
}.

(** Modelled from the spec: a default constructed [KernelFunction], which
    is what an empty slot of the fallback table holds: no callable, not a
    pass-through. *)
Definition invalid_kernel : KernelFunction :=
  {| callable := None; isFallthrough := false |}.

(** Modelled from the spec: the move constructor of [KernelFunction] is
    declared outside Dispatcher.cpp.  [std::move(kernel)] passed to a
    by-value parameter hands the kernel to the callee and leaves the
    caller's object moved-from: the callable is given away, and the
    pass-through flag, a boolean that a member-wise move copies, stays. *)
Definition std_move (kernel : KernelFunction) : KernelFunction * KernelFunction :=
  (kernel, {| callable := None; isFallthrough := isFallthrough kernel |}).

(** Modelled from the spec: the fallback table is a
    [mapping<BackendTag, optional<Kernel>>] with at most one kernel per tag.
    [KernelFunctionTable] is declared outside Dispatcher.cpp. *)
Abbreviation KernelFunctionTable := (gmap DispatchKey KernelFunction).

(** Modelled from the spec: the result types of the two table operations.
    Dispatcher.cpp names the results [ADDED_NEW_KERNEL] and
    [REMOVED_KERNEL] and tests for them; the second constructor of each
    type stands for any other result. *)
Inductive SetKernelResult := ADDED_NEW_KERNEL | KERNEL_ALREADY_PRESENT.

Inductive RemoveKernelIfExistsResult := REMOVED_KERNEL | KERNEL_DIDNT_EXIST.

(** Modelled from the spec: [KernelFunctionTable::setKernel] is missing from
    the sources.  "Exactly one fallback per tag, enforced, not silently
    replaced" and "registration never partially mutates state on a
    conflict": an occupied slot is reported and left as it is. *)
Definition setKernel (k : DispatchKey) (kernel : KernelFunction)
    (t : KernelFunctionTable) : SetKernelResult * KernelFunctionTable :=
  match t !! k with
  | None => (ADDED_NEW_KERNEL, <[k := kernel]> t)
  | Some _ => (KERNEL_ALREADY_PRESENT, t)
  end.

(** Modelled from the spec: [KernelFunctionTable::removeKernelIfExists] is
    missing from the sources; it "removes the tag's fallback kernel" and
    reports whether there was one. *)
Definition removeKernelIfExists (k : DispatchKey) (t : KernelFunctionTable)
    : RemoveKernelIfExistsResult * KernelFunctionTable :=
  match t !! k with
  | Some _ => (REMOVED_KERNEL, delete k t)
  | None => (KERNEL_DIDNT_EXIST, t)
  end.

(** Modelled from the spec: [KernelFunctionTable::operator[]]; an empty slot
    reads as a default constructed kernel. *)
Definition table_at (t : KernelFunctionTable) (k : DispatchKey) : KernelFunction :=
  default invalid_kernel (t !! k).

(** Modelled from the spec: [DispatchKeySet] is "a fixed, enumerable,
    bitset-representable universe of tags with has/add/remove operations
    and a full set constant"; its representation is out of scope. *)
Abbreviation DispatchKeySet := (gset DispatchKey).

(** Modelled from the spec: [DispatchKeySet::has]. *)
Definition has (s : DispatchKeySet) (k : DispatchKey) : bool := bool_decide (k ∈ s).

(** Modelled from the spec: [DispatchKeySet::add], the set with [k]. *)
Definition add (s : DispatchKeySet) (k : DispatchKey) : DispatchKeySet := s ∪ {[k]}.

(** Modelled from the spec: [DispatchKeySet::remove], the set without [k]. *)
Definition remove (s : DispatchKeySet) (k : DispatchKey) : DispatchKeySet := s ∖ {[k]}.

(** Modelled from the spec: [DispatchKeySet::FULL], the "full set" of the
    dispatch keys. *)
Definition FULL (NumDispatchKeys : nat) : DispatchKeySet :=
  list_to_set (seq 0 NumDispatchKeys).

(** ** Operator entries *)

(** Modelled from the spec: [impl::OperatorEntry::KernelEntry], a kernel
    registration: what [registerImpl] passes on to [registerKernel]. *)
Record KernelEntry := mkKernelEntry {
  kernel : KernelFunction;
  inferred_function_schema : option FunctionSchema;
  debug : string
}.

(** Modelled from the spec: [impl::OperatorEntry] is declared outside
    Dispatcher.cpp.  It holds the name, the optional schema and the kernels
    "keyed by backend tag (plus one catch-all slot)", each kernel list being
    an ordered sequence.  The kernels are kept in registration order, every
    one with the identity of its list node and its slot ([None] is the
    catch-all slot); [next_kernel_] names the next node to be allocated. *)
Record OperatorEntry := mkOperatorEntry {
  name_ : OperatorName;
  schema_ : option FunctionSchema;
  kernels_ : list (option DispatchKey * KernelHandle * KernelEntry);
  next_kernel_ : KernelHandle
}.

(** Modelled from the spec: the entry constructed from a name has no schema
    ("present only if some definition registration has occurred") and no
    kernel. *)
Definition new_OperatorEntry (op_name : OperatorName) : OperatorEntry :=
  {| name_ := op_name; schema_ := None; kernels_ := []; next_kernel_ := 0 |}.

(** Modelled from the spec: [hasSchema()], whether a schema is attached. *)
Definition hasSchema (e : OperatorEntry) : bool :=
  match schema_ e with Some _ => true | None => false end.

(** Modelled from the spec: a definition "attaches the schema". *)
Definition registerSchema (s : FunctionSchema) (e : OperatorEntry) : OperatorEntry :=
  {| name_ := name_ e; schema_ := Some s;
     kernels_ := kernels_ e; next_kernel_ := next_kernel_ e |}.

(** Modelled from the spec: [deregisterSchema()] removes the schema. *)
Definition deregisterSchema (e : OperatorEntry) : OperatorEntry :=
  {| name_ := name_ e; schema_ := None;
     kernels_ := kernels_ e; next_kernel_ := next_kernel_ e |}.

(** Modelled from the spec: "appends the kernel to the entry's table under
    the given tag (or the catch-all slot if no tag given)"; "no
    compatibility check against schema is performed here".  The result is
    the iterator to the new list node. *)
Definition registerKernel (dispatch_key : option DispatchKey)
    (k : KernelFunction) (inferred : option FunctionSchema) (dbg : string)
    (e : OperatorEntry) : KernelHandle * OperatorEntry :=
  (next_kernel_ e,
   {| name_ := name_ e; schema_ := schema_ e;
      kernels_ := kernels_ e ++
        [(dispatch_key, next_kernel_ e,
          {| kernel := k; inferred_function_schema := inferred; debug := dbg |})];
      next_kernel_ := S (next_kernel_ e) |}).

(** The slot and the node identity of a registered kernel. *)
Definition kernel_key (x : option DispatchKey * KernelHandle * KernelEntry)
    : option DispatchKey * KernelHandle := x.1.

(** Erasing one node from a kernel list: the first (and, node identities
    being unique, only) node with that identity in that slot. *)
Fixpoint erase_kernel (key : option DispatchKey * KernelHandle)
    (l : list (option DispatchKey * KernelHandle * KernelEntry))
    : option (list (option DispatchKey * KernelHandle * KernelEntry)) :=
  match l with
  | [] => None
  | x :: l' =>
      if decide (kernel_key x = key) then Some l'
      else cons x <$> erase_kernel key l'
  end.

(** Modelled from the spec: "removes the specific kernel entry from the
    table"; [None] when the slot holds no such node. *)
Definition deregisterKernel_ (dispatch_key : option DispatchKey)
    (handle : KernelHandle) (e : OperatorEntry) : option OperatorEntry :=
  l ← erase_kernel (dispatch_key, handle) (kernels_ e);
  Some {| name_ := name_ e; schema_ := schema_ e;
          kernels_ := l; next_kernel_ := next_kernel_ e |}.

(** Modelled from the spec: "the registry asserts the entry carries no
    lingering obligations (no schema, no kernels)". *)
Definition prepareForDeregistration (e : OperatorEntry) : bool :=
  negb (hasSchema e) && bool_decide (kernels_ e = []).

(** Modelled from the spec: [Dispatcher::OperatorDef] is declared in
    Dispatcher.h, which is not among the sources.  It is an entry with its
    two reference counts, "unsigned integers" that count the registrations
    still alive.  Every such registration keeps a handle object alive, so
    the counts stay far below the range of a machine integer and are kept
    as natural numbers; the decrements are guarded by assertions. *)
Record OperatorDef := mkOperatorDef {
  op : OperatorEntry;
  def_count : nat;
  def_and_impl_count : nat
}.

(** What [operators_.emplace_back(OperatorName(op_name))] constructs: no
    schema, no kernels, no registration counted yet. *)
Definition new_OperatorDef (op_name : OperatorName) : OperatorDef :=
  {| op := new_OperatorEntry op_name; def_count := 0; def_and_impl_count := 0 |}.

Definition with_op (f : OperatorEntry → OperatorEntry) (e : OperatorDef) : OperatorDef :=
  {| op := f (op e); def_count := def_count e;
     def_and_impl_count := def_and_impl_count e |}.

Definition with_def_count (f : nat → nat) (e : OperatorDef) : OperatorDef :=
  {| op := op e; def_count := f (def_count e);
     def_and_impl_count := def_and_impl_count e |}.

Definition with_def_and_impl_count (f : nat → nat) (e : OperatorDef) : OperatorDef :=
  {| op := op e; def_count := def_count e;
     def_and_impl_count := f (def_and_impl_count e) |}.

(** ** The registry *)

(** [operators_] is the [std::list] of operator definitions in list order,
    every node with its identity; [next_node_] names the next node to be
    allocated, so that no identity is handed out twice.
    [operatorLookupTable_] is the hash map under the left-right wrapper. *)
Record Dispatcher := mkDispatcher {
  operators_ : list (OperatorHandle * OperatorDef);
  next_node_ : OperatorHandle;
  operatorLookupTable_ : gmap OperatorName OperatorHandle;
  backendFallbackKernels_ : KernelFunctionTable;
  backendsWithoutFallthrough_ : DispatchKeySet;
  listeners_ : list ListenerId
}.

(** The node an iterator points to, if it is still in the list. *)
Fixpoint lookup_node (h : OperatorHandle) (l : list (OperatorHandle * OperatorDef))
    : option OperatorDef :=
  match l with
  | [] => None
  | (h', e) :: l' => if decide (h' = h) then Some e else lookup_node h l'
  end.

(** Assignment through an iterator. *)
Fixpoint update_node (h : OperatorHandle) (f : OperatorDef → OperatorDef)
    (l : list (OperatorHandle * OperatorDef)) : list (OperatorHandle * OperatorDef) :=
  match l with
  | [] => []
  | (h', e) :: l' =>
      if decide (h' = h) then (h', f e) :: l' else (h', e) :: update_node h f l'
  end.

(** [operators_.erase(it)]. *)
Fixpoint erase_node (h : OperatorHandle) (l : list (OperatorHandle * OperatorDef))
    : list (OperatorHandle * OperatorDef) :=
  match l with
  | [] => []
  | (h', e) :: l' => if decide (h' = h) then l' else (h', e) :: erase_node h l'
  end.

(** [flat_hash_map::emplace]: inserts unless the key is present. *)
Definition emplace (k : OperatorName) (h : OperatorHandle)
    (t : gmap OperatorName OperatorHandle) : gmap OperatorName OperatorHandle :=
  match t !! k with Some _ => t | None => <[k := h]> t end.

Definition set_operators (f : list (OperatorHandle * OperatorDef) →
                              list (OperatorHandle * OperatorDef))
    (d : Dispatcher) : Dispatcher :=
  {| operators_ := f (operators_ d); next_node_ := next_node_ d;
     operatorLookupTable_ := operatorLookupTable_ d;
     backendFallbackKernels_ := backendFallbackKernels_ d;
     backendsWithoutFallthrough_ := backendsWithoutFallthrough_ d;
     listeners_ := listeners_ d |}.

Definition set_lookup (f : gmap OperatorName OperatorHandle →
                           gmap OperatorName OperatorHandle)
    (d : Dispatcher) : Dispatcher :=
  {| operators_ := operators_ d; next_node_ := next_node_ d;
     operatorLookupTable_ := f (operatorLookupTable_ d);
     backendFallbackKernels_ := backendFallbackKernels_ d;
     backendsWithoutFallthrough_ := backendsWithoutFallthrough_ d;
     listeners_ := listeners_ d |}.

Definition set_fallbacks (t : KernelFunctionTable) (d : Dispatcher) : Dispatcher :=
  {| operators_ := operators_ d; next_node_ := next_node_ d;
     operatorLookupTable_ := operatorLookupTable_ d;
     backendFallbackKernels_ := t;
     backendsWithoutFallthrough_ := backendsWithoutFallthrough_ d;
     listeners_ := listeners_ d |}.

Definition set_without_fallthrough (s : DispatchKeySet) (d : Dispatcher) : Dispatcher :=
  {| operators_ := operators_ d; next_node_ := next_node_ d;
     operatorLookupTable_ := operatorLookupTable_ d;
     backendFallbackKernels_ := backendFallbackKernels_ d;
     backendsWithoutFallthrough_ := s;
     listeners_ := listeners_ d |}.

Definition emplace_back (op_name : OperatorName) (d : Dispatcher) : Dispatcher :=
  {| operators_ := operators_ d ++ [(next_node_ d, new_OperatorDef op_name)];
     next_node_ := S (next_node_ d);
     operatorLookupTable_ := operatorLookupTable_ d;
     backendFallbackKernels_ := backendFallbackKernels_ d;
     backendsWithoutFallthrough_ := backendsWithoutFallthrough_ d;
     listeners_ := listeners_ d |}.

Definition push_listener (l : ListenerId) (d : Dispatcher) : Dispatcher :=
  {| operators_ := operators_ d; next_node_ := next_node_ d;
     operatorLookupTable_ := operatorLookupTable_ d;
     backendFallbackKernels_ := backendFallbackKernels_ d;
     backendsWithoutFallthrough_ := backendsWithoutFallthrough_ d;
     listeners_ := listeners_ d ++ [l] |}.

(** ** Effects *)

(** What a call can throw.  The first three are the [TORCH_CHECK] failures
    of this file, errors the caller can catch; [InternalAssert] is a failed
    [TORCH_INTERNAL_ASSERT]; [DanglingHandle] stands for the undefined
    behaviour of going through an iterator whose node has been erased. *)
Inductive Failure :=
  | SchemaConflict
  | AliasAnalysisConflict
  | DuplicateFallback
  | InternalAssert
  | DanglingHandle.

(** What a call does besides changing the registry: it locks and unlocks
    [mutex_], and it calls listeners.  A callback is recorded with the
    listener, the handle it is given and the registry as it is at that
    moment, which is what the callback can query. *)
Inductive Event :=
  | Lock
  | Unlock
  | OnOperatorRegistered (listener : ListenerId) (h : OperatorHandle) (seen : Dispatcher)
  | OnOperatorDeregistered (listener : ListenerId) (h : OperatorHandle) (seen : Dispatcher).

Definition is_callback (ev : Event) : bool :=
  match ev with
  | OnOperatorRegistered _ _ _ | OnOperatorDeregistered _ _ _ => true
  | Lock | Unlock => false
  end.

Definition Outcome (A : Type) : Type := (Failure + A) * Dispatcher * list Event.

Definition result {A} (o : Outcome A) : Failure + A := o.1.1.
Definition state {A} (o : Outcome A) : Dispatcher := o.1.2.
Definition events {A} (o : Outcome A) : list Event := o.2.

Definition M (A : Type) : Type := Dispatcher → Outcome A.

#[global] Instance M_ret : MRet M := λ A a d, (inr a, d, []).

#[global] Instance M_bind : MBind M := λ A B f m d,
  match m d with
  | (inr a, d1, ev1) =>
      (result (f a d1), state (f a d1), ev1 ++ events (f a d1))
  | (inl e, d1, ev1) => (inl e, d1, ev1)
  end.

Definition get : M Dispatcher := λ d, (inr d, d, []).
Definition modify (f : Dispatcher → Dispatcher) : M unit := λ d, (inr (), f d, []).
Definition throw {A} (e : Failure) : M A := λ d, (inl e, d, []).
Definition emit (evs : Dispatcher → list Event) : M unit := λ d, (inr (), d, evs d).

Definition TORCH_CHECK (cond : bool) (e : Failure) : M unit :=
  if cond then mret () else throw e.

Definition TORCH_INTERNAL_ASSERT (cond : bool) : M unit :=
  if cond then mret () else throw InternalAssert.

(** [std::lock_guard<std::mutex> lock(mutex_)] at the head of a function
    body: the mutex is taken, and released when the scope is left, by
    return or by exception. *)
Definition lock_guard {A} (body : M A) : M A := λ d,
  (result (body d), state (body d), Lock :: events (body d) ++ [Unlock]).

Fixpoint for_each {A} (l : list A) (body : A → M unit) : M unit :=
  match l with
  | [] => mret ()
  | x :: l' => body x;; for_each l' body
  end.

(** Reading through [op.operatorIterator_]. *)
Definition deref (h : OperatorHandle) : M OperatorDef := λ d,
  match lookup_node h (operators_ d) with
  | Some e => (inr e, d, [])
  | None => (inl DanglingHandle, d, [])
  end.

(** Writing through [op.operatorIterator_]. *)
Definition assign (h : OperatorHandle) (f : OperatorDef → OperatorDef) : M unit :=
  deref h;; modify (set_operators (update_node h f)).

(** Modelled from the spec: [op.schema()], declared with [OperatorHandle]
    outside Dispatcher.cpp, is the schema of an entry that has one; asking
    an entry without a schema is an internal invariant violation. *)
Definition handle_schema (h : OperatorHandle) : M FunctionSchema :=
  e ← deref h;
  match schema_ (op e) with
  | Some s => mret s
  | None => throw InternalAssert
  end.

(** ** Registration handles *)

(** A [RegistrationHandleRAII] wraps a closure; the three closures built in
    this file are kept by what they capture and call. *)
Inductive RegistrationHandleRAII :=
  | DeregisterDef (h : OperatorHandle) (op_name : OperatorName)
  | DeregisterImpl (h : OperatorHandle) (op_name : OperatorName)
      (dispatch_key : option DispatchKey) (handle : KernelHandle)
  | DeregisterFallback (dispatchKey : DispatchKey).

(** ** The listener list *)

Definition addListener (listener : ListenerId) : M unit :=
  modify (push_listener listener).

Definition callOnOperatorRegistered (h : OperatorHandle) : M unit :=
  emit (λ d, (λ listener, OnOperatorRegistered listener h d) <$> listeners_ d).

Definition callOnOperatorDeregistered (h : OperatorHandle) : M unit :=
  emit (λ d, (λ listener, OnOperatorDeregistered listener h d) <$> listeners_ d).

(** ** Lookup *)

Definition findOperatorByName (overload_name : OperatorName) (d : Dispatcher)
    : option OperatorHandle :=
  operatorLookupTable_ d !! overload_name.

Definition findSchema (overload_name : OperatorName) (d : Dispatcher)
    : Failure + option OperatorHandle :=
  match findOperatorByName overload_name d with
  | Some it =>
      match lookup_node it (operators_ d) with
      | Some e => if hasSchema (op e) then inr (Some it) else inr None
      | None => inl DanglingHandle
      end
  | None => inr None
  end.

Definition findOrRegisterName_ (op_name : OperatorName) : M OperatorHandle :=
  d ← get;
  match findOperatorByName op_name d with
  | Some found => mret found
  | None =>
      modify (emplace_back op_name);;
      modify (set_lookup (emplace op_name (next_node_ d)));;
      mret (next_node_ d)
  end.

Section Dispatcher.

(** The parts of the collaborators that Dispatcher.cpp uses but does not
    define: the number of dispatch keys, the kind that [aliasAnalysis()]
    reports for a schema that does not specify one, and the consistency
    check of a single operator entry. *)
Variable NumDispatchKeys : nat.
Variable default_alias_kind : AliasAnalysisKind.
Variable entry_checkInvariants : OperatorEntry → bool.

(** Modelled from the spec: [FunctionSchema::aliasAnalysis()], the kind of
    the schema; [checkSchemaCompatibility] calls it on schemas with and
    without a specified kind, and for the latter it is the kind taken as a
    parameter above. *)
Definition aliasAnalysis (s : FunctionSchema) : AliasAnalysisKind :=
  default default_alias_kind (alias_kind_ s).

(** The constructor. *)
Definition new_Dispatcher : Dispatcher :=
  {| operators_ := []; next_node_ := 0;
     operatorLookupTable_ := ∅;
     backendFallbackKernels_ := ∅;
     backendsWithoutFallthrough_ := FULL NumDispatchKeys;
     listeners_ := [] |}.

(** ** Registration and deregistration *)

Definition checkSchemaCompatibility (h : OperatorHandle) (schema : FunctionSchema)
    : M unit :=
  s ← handle_schema h;
  TORCH_CHECK (schema_eqb s schema) SchemaConflict;;
  if isDefaultAliasAnalysisKind schema then
    mret ()
  else if isDefaultAliasAnalysisKind s then
    TORCH_CHECK (bool_decide (aliasAnalysis s = aliasAnalysis schema))
      AliasAnalysisConflict
  else
    TORCH_CHECK (bool_decide (aliasAnalysis s = aliasAnalysis schema))
      AliasAnalysisConflict.

Definition registerDef (schema : FunctionSchema) : M RegistrationHandleRAII :=
  lock_guard (
    let op_name := operator_name schema in
    h ← findOrRegisterName_ op_name;
    e ← deref h;
    (if bool_decide (def_count e = 0) then
       assign h (with_op (registerSchema schema));;
       callOnOperatorRegistered h
     else
       checkSchemaCompatibility h schema);;
    assign h (with_def_count S);;
    assign h (with_def_and_impl_count S);;
    mret (DeregisterDef h op_name)).

Definition cleanup (h : OperatorHandle) (op_name : OperatorName) : M unit :=
  e ← deref h;
  if bool_decide (0 = def_and_impl_count e) then
    TORCH_INTERNAL_ASSERT (prepareForDeregistration (op e));;
    modify (set_operators (erase_node h));;
    modify (set_lookup (delete op_name))
  else
    mret ().

Definition deregisterDef_ (h : OperatorHandle) (op_name : OperatorName) : M unit :=
  lock_guard (
    s ← handle_schema h;
    TORCH_INTERNAL_ASSERT (bool_decide (operator_name s = op_name));;
    e ← deref h;
    TORCH_INTERNAL_ASSERT (bool_decide (0 < def_count e));;
    TORCH_INTERNAL_ASSERT (bool_decide (0 < def_and_impl_count e));;
    assign h (with_def_count pred);;
    assign h (with_def_and_impl_count pred);;
    e ← deref h;
    (if bool_decide (0 = def_count e) then
       callOnOperatorDeregistered h;;
       assign h (with_op deregisterSchema)
     else
       mret ());;
    cleanup h op_name).

Definition registerImpl (op_name : OperatorName) (dispatch_key : option DispatchKey)
    (kernel : KernelFunction) (inferred_function_schema : option FunctionSchema)
    (debug : string) : M RegistrationHandleRAII :=
  lock_guard (
    h ← findOrRegisterName_ op_name;
    e ← deref h;
    let registered :=
      registerKernel dispatch_key (std_move kernel).1
        inferred_function_schema debug (op e) in
    assign h (with_op (λ _, registered.2));;
    assign h (with_def_and_impl_count S);;
    mret (DeregisterImpl h op_name dispatch_key registered.1)).

Definition deregisterImpl_ (h : OperatorHandle) (op_name : OperatorName)
    (dispatch_key : option DispatchKey) (handle : KernelHandle) : M unit :=
  lock_guard (
    e ← deref h;
    match deregisterKernel_ dispatch_key handle (op e) with
    | Some entry => assign h (with_op (λ _, entry))
    | None => throw InternalAssert
    end;;
    e ← deref h;
    TORCH_INTERNAL_ASSERT (bool_decide (name_ (op e) = op_name));;
    TORCH_INTERNAL_ASSERT (bool_decide (0 < def_and_impl_count e));;
    assign h (with_def_and_impl_count pred);;
    cleanup h op_name).

(** [kernel] is read after it has been moved into [setKernel]: the
    pass-through test is made on the moved-from object. *)
Definition registerFallback (dispatchKey : DispatchKey) (kernel : KernelFunction)
    : M RegistrationHandleRAII :=
  d ← get;
  let moved := std_move kernel in
  let inserted := setKernel dispatchKey moved.1 (backendFallbackKernels_ d) in
  modify (set_fallbacks inserted.2);;
  TORCH_CHECK (match inserted.1 with ADDED_NEW_KERNEL => true | _ => false end)
    DuplicateFallback;;
  (if isFallthrough moved.2 then
     modify (λ d, set_without_fallthrough
                    (remove (backendsWithoutFallthrough_ d) dispatchKey) d)
   else
     mret ());;
  mret (DeregisterFallback dispatchKey).

Definition deregisterFallback_ (dispatchKey : DispatchKey) : M unit :=
  d ← get;
  let result := removeKernelIfExists dispatchKey (backendFallbackKernels_ d) in
  modify (set_fallbacks result.2);;
  modify (λ d, set_without_fallthrough
                 (add (backendsWithoutFallthrough_ d) dispatchKey) d);;
  TORCH_INTERNAL_ASSERT (match result.1 with REMOVED_KERNEL => true | _ => false end).

(** ** Listeners and diagnostics *)

Definition onOperatorRegistered (listener : ListenerId) (h : OperatorHandle) : M unit :=
  emit (λ d, [OnOperatorRegistered listener h d]).

Definition addRegistrationListener (listener : ListenerId) : M unit :=
  lock_guard (
    d ← get;
    for_each (operators_ d) (λ iter,
      if bool_decide (0 < def_count iter.2) then
        onOperatorRegistered listener iter.1
      else
        mret ());;
    addListener listener).

Definition checkInvariants : M unit :=
  d ← get;
  for_each (operators_ d) (λ iter,
    TORCH_INTERNAL_ASSERT (entry_checkInvariants (op iter.2)));;
  for_each (seq 1 (NumDispatchKeys - 1)) (λ k,
    if negb (has (backendsWithoutFallthrough_ d) k) then
      TORCH_INTERNAL_ASSERT (isFallthrough (table_at (backendFallbackKernels_ d) k))
    else
      mret ()).

(** ** Registration sites *)

(** Destroying a registration handle runs its closure. *)
Definition release (t : RegistrationHandleRAII) : M unit :=
  match t with
  | DeregisterDef h op_name => deregisterDef_ h op_name
  | DeregisterImpl h op_name dispatch_key handle =>
      deregisterImpl_ h op_name dispatch_key handle
  | DeregisterFallback dispatchKey => deregisterFallback_ dispatchKey
  end.

(** The calls a client makes.  A handle is released by its position among
    the handles that are alive, so it is released once. *)
Inductive Call :=
  | RegisterDef (schema : FunctionSchema)
  | RegisterImpl (op_name : OperatorName) (dispatch_key : option DispatchKey)
      (kernel : KernelFunction) (inferred_function_schema : option FunctionSchema)
      (debug : string)
  | RegisterFallback (dispatchKey : DispatchKey) (kernel : KernelFunction)
  | AddRegistrationListener (listener : ListenerId)
  | Release (i : nat).

(** A registry with the registration handles that are alive. *)
Definition World : Type := Dispatcher * list RegistrationHandleRAII.

Definition keep_handle (o : Outcome RegistrationHandleRAII)
    (toks : list RegistrationHandleRAII) : World :=
  match result o with
  | inr t => (state o, toks ++ [t])
  | inl _ => (state o, toks)
  end.

Definition perform (c : Call) (w : World) : World :=
  match c with
  | RegisterDef schema => keep_handle (registerDef schema w.1) w.2
  | RegisterImpl op_name dispatch_key kernel inferred dbg =>
      keep_handle (registerImpl op_name dispatch_key kernel inferred dbg w.1) w.2
  | RegisterFallback dispatchKey kernel =>
      keep_handle (registerFallback dispatchKey kernel w.1) w.2
  | AddRegistrationListener listener =>
      (state (addRegistrationListener listener w.1), w.2)
  | Release i =>
      match w.2 !! i with
      | Some t => (state (release t w.1), delete i w.2)
      | None => w
      end
  end.

Definition run (calls : list Call) (w : World) : World :=
  foldl (λ w c, perform c w) w calls.

Inductive reachable : World → Prop :=
  | reachable_new : reachable (new_Dispatcher, [])
  | reachable_perform c w : reachable w → reachable (perform c w).

(** ** The invariant of the registry *)

(** The operator a registration handle refers to. *)
Definition token_op (t : RegistrationHandleRAII) : option (OperatorHandle * OperatorName) :=
  match t with
  | DeregisterDef h op_name => Some (h, op_name)
  | DeregisterImpl h op_name _ _ => Some (h, op_name)
  | DeregisterFallback _ => None
  end.

(** The live definition handles of an operator, by the name they carry. *)
Definition def_names (h : OperatorHandle) (toks : list RegistrationHandleRAII)
    : list OperatorName :=
  omap (λ t, match t with
             | DeregisterDef h' op_name => if decide (h' = h) then Some op_name else None
             | _ => None
             end) toks.

(** The live implementation handles of an operator, by the kernel node they
    remove. *)
Definition impl_keys (h : OperatorHandle) (toks : list RegistrationHandleRAII)
    : list (option DispatchKey * KernelHandle) :=
  omap (λ t, match t with
             | DeregisterImpl h' _ dispatch_key handle =>
                 if decide (h' = h) then Some (dispatch_key, handle) else None
             | _ => None
             end) toks.

(** An operator definition agrees with the handles that are alive. *)
Record entry_ok (toks : list RegistrationHandleRAII) (h : OperatorHandle)
    (e : OperatorDef) : Prop := {
  entry_defs : def_count e = length (def_names h toks);
  entry_impls : kernel_key <$> kernels_ (op e) ≡ₚ impl_keys h toks;
  entry_counts : def_and_impl_count e = def_count e + length (kernels_ (op e));
  entry_alive : 0 < def_and_impl_count e;
  entry_schema : schema_ (op e) = None ↔ def_count e = 0;
  entry_schema_name : ∀ s, schema_ (op e) = Some s → operator_name s = name_ (op e)
}.

Record registry_ok (w : World) : Prop := {
  ok_nodup : NoDup (operators_ w.1).*1;
  ok_fresh : ∀ h, h ∈ (operators_ w.1).*1 → h < next_node_ w.1;
  ok_table : ∀ n h,
    operatorLookupTable_ w.1 !! n = Some h ↔
    ∃ e, lookup_node h (operators_ w.1) = Some e ∧ name_ (op e) = n;
  ok_entries : ∀ h e, lookup_node h (operators_ w.1) = Some e → entry_ok w.2 h e;
  ok_tokens : ∀ t h n, t ∈ w.2 → token_op t = Some (h, n) →
    ∃ e, lookup_node h (operators_ w.1) = Some e ∧ name_ (op e) = n
}.

(** A backend tag is a dispatch key other than [Undefined]. *)
Definition backend_tag (k : DispatchKey) : Prop := Undefined < k < NumDispatchKeys.

(** Every backend tag outside [backendsWithoutFallthrough_] has a
    pass-through fallback kernel. *)
Definition fallthrough_ok (d : Dispatcher) : Prop :=
  ∀ k, backend_tag k → has (backendsWithoutFallthrough_ d) k = false →
    ∃ kern, backendFallbackKernels_ d !! k = Some kern ∧ isFallthrough kern = true.

(** The registry after the node of [h] has been overwritten with [e],
    after a node [e] has been appended for the name [n], and after the node
    of [h], known under the name [n], has been erased. *)
Definition stored (h : OperatorHandle) (e : OperatorDef) (d : Dispatcher) : Dispatcher :=
  set_operators (update_node h (λ _, e)) d.

Definition created (n : OperatorName) (e : OperatorDef) (d : Dispatcher) : Dispatcher :=
  {| operators_ := operators_ d ++ [(next_node_ d, e)];
     next_node_ := S (next_node_ d);
     operatorLookupTable_ := <[n := next_node_ d]> (operatorLookupTable_ d);
     backendFallbackKernels_ := backendFallbackKernels_ d;
     backendsWithoutFallthrough_ := backendsWithoutFallthrough_ d;
     listeners_ := listeners_ d |}.

Definition erased (h : OperatorHandle) (n : OperatorName) (d : Dispatcher) : Dispatcher :=
  set_lookup (delete n) (set_operators (erase_node h) d).

(** ** Summaries used in the proofs *)

(** What [checkSchemaCompatibility] decides for an existing and a new
    schema: [None] when it returns, the error when it throws
    ([checkSchemaCompatibility_run] below). *)
Definition schema_check (existing new : FunctionSchema) : option Failure :=
  if schema_eqb existing new then
    if isDefaultAliasAnalysisKind new then None
    else if bool_decide (aliasAnalysis existing = aliasAnalysis new) then None
    else Some AliasAnalysisConflict
  else Some SchemaConflict.

(** The node of [h] once a definition handle has been released: the counts
    are decremented, and the schema goes with the last definition. *)
Definition def_released (e : OperatorDef) : OperatorDef :=
  let e1 := with_def_and_impl_count pred (with_def_count pred e) in
  if bool_decide (0 = def_count e1) then with_op deregisterSchema e1 else e1.

(** ** Frame properties of monadic code *)

(** The fallback table and [backendsWithoutFallthrough_] are left alone. *)
Definition keeps_fallbacks {A} (m : M A) : Prop :=
  ∀ d, backendFallbackKernels_ (state (m d)) = backendFallbackKernels_ d ∧
       backendsWithoutFallthrough_ (state (m d)) = backendsWithoutFallthrough_ d.

(** No listener is called. *)
Definition silent {A} (m : M A) : Prop :=
  ∀ d, Forall (λ ev, is_callback ev = false) (events (m d)).

(** The listener calls among the events of a call. *)
Definition callbacks (evs : list Event) : list Event :=
  filter (λ ev, is_callback ev = true) evs.

(** The operators a list of events announces as registered. *)
Definition announced (evs : list Event) : list OperatorHandle :=
  omap (λ ev, match ev with
              | OnOperatorRegistered _ h _ => Some h
              | _ => None
              end) evs.

(** ** Sample registrations *)

Definition add_name : OperatorName := ("pkg::add"%string, EmptyString).
Definition mul_name : OperatorName := ("pkg::mul"%string, EmptyString).

(** [pkg::add(Int,Int)->Int] without an alias-analysis kind, and with one. *)
Definition add_schema : FunctionSchema :=
  {| schema_name := add_name; schema_signature := "(Int,Int)->Int";
     alias_kind_ := None |}.

Definition add_schema_kind (k : AliasAnalysisKind) : FunctionSchema :=
  {| schema_name := add_name; schema_signature := "(Int,Int)->Int";
     alias_kind_ := Some k |}.

Definition add_schema_float : FunctionSchema :=
  {| schema_name := add_name; schema_signature := "(Float,Float)->Float";
     alias_kind_ := None |}.

Definition CPU : DispatchKey := 1.
Definition Autograd : DispatchKey := 3.

Definition cpu_kernel : KernelFunction :=
  {| callable := Some 1; isFallthrough := false |}.

Definition fallthrough_kernel : KernelFunction :=
  {| callable := Some 2; isFallthrough := true |}.

(** One listener, then a definition of [pkg::add] and a CPU kernel for it. *)
Definition add_defined : World :=
  run [AddRegistrationListener 0; RegisterDef add_schema;
       RegisterImpl add_name (Some CPU) cpu_kernel None "cpu"]
    (new_Dispatcher, []).

(** A CPU kernel for [pkg::mul] and no definition. *)
Definition mul_implemented : World :=
  run [RegisterImpl mul_name (Some CPU) cpu_kernel None "cpu"] add_defined.

(** A pass-through fallback for [Autograd]. *)
Definition autograd_fallthrough : World :=
  run [RegisterFallback Autograd fallthrough_kernel] add_defined.

(** [pkg::mul(Int,Int)->Int] without an alias-analysis kind. *)
Definition mul_schema : FunctionSchema :=
  {| schema_name := mul_name; schema_signature := "(Int,Int)->Int";
     alias_kind_ := None |}.

(** ** Lookup with a diagnosis *)

(** What [findSchemaOrThrow] throws: the error of a [TORCH_CHECK(false, ...)]
    with the message made of its arguments, or what the lookup itself ran
    into. *)
Inductive LookupError :=
  | CheckFailed (message : string)
  | LookupBroken (f : Failure).

(** The text [TORCH_CHECK] puts together from its first four arguments. *)
Definition missing_schema (name overload_name : string) : string :=
  "Could not find schema for " +:+ name +:+ "." +:+ overload_name.

Definition findSchemaOrThrow (name overload_name : string) (d : Dispatcher)
    : LookupError + OperatorHandle :=
  match findSchema (name, overload_name) d with
  | inl f => inl (LookupBroken f)
  | inr (Some it) => inr it
  | inr None =>
      (* Check if we have ANYTHING; if that's the case, that means you're
         missing schema *)
      match findOperatorByName (name, overload_name) d with
      | None => inl (CheckFailed (missing_schema name overload_name))
      | Some _ =>
          inl (CheckFailed
                 (missing_schema name overload_name +:+
                  " but we found an implementation; did you forget to def() the operator?"))
      end
  end.

(** ** More invariants and frame properties *)

(** The tags of the fallback handles that are alive. *)
Definition fallback_keys (toks : list RegistrationHandleRAII) : list DispatchKey :=
  omap (λ t, match t with
             | DeregisterFallback k => Some k
             | _ => None
             end) toks.

(** The fallback table holds a kernel exactly for the tags that have a
    handle alive, and no tag has two. *)
Definition fallbacks_ok (w : World) : Prop :=
  NoDup (fallback_keys w.2)
  ∧ ∀ k, k ∈ fallback_keys w.2 ↔ is_Some (backendFallbackKernels_ w.1 !! k).

(** Every value the code returns satisfies [P]. *)
Definition returns {A} (P : A → Prop) (m : M A) : Prop :=
  ∀ d a, result (m d) = inr a → P a.

(** Every step of the code takes the registry to one related by [R]. *)
Definition preserves {A} (R : relation Dispatcher) (m : M A) : Prop :=
  ∀ d, R d (state (m d)).

(** No name loses or changes its handle in the lookup index. *)
Definition index_le (d d' : Dispatcher) : Prop :=
  ∀ n h, operatorLookupTable_ d !! n = Some h →
         operatorLookupTable_ d' !! n = Some h.

(** The listeners are the same. *)
Definition same_listeners (d d' : Dispatcher) : Prop :=
  listeners_ d' = listeners_ d.

(** A name in the lookup index keeps its handle or leaves the index. *)
Definition keeps_or_drops_index {A} (m : M A) : Prop :=
  ∀ d n h, operatorLookupTable_ d !! n = Some h →
           operatorLookupTable_ (state (m d)) !! n = Some h
           ∨ operatorLookupTable_ (state (m d)) !! n = None.

(** The parts of the registry that hold the operators, and the parts that
    hold the backend fallbacks. *)
Definition same_operators (d d' : Dispatcher) : Prop :=
  operators_ d' = operators_ d
  ∧ next_node_ d' = next_node_ d
  ∧ operatorLookupTable_ d' = operatorLookupTable_ d.

Definition same_fallbacks (d d' : Dispatcher) : Prop :=
  backendFallbackKernels_ d' = backendFallbackKernels_ d
  ∧ backendsWithoutFallthrough_ d' = backendsWithoutFallthrough_ d.

(** Only listeners are called: the mutex is neither taken nor released. *)
Definition only_callbacks {A} (m : M A) : Prop :=
  ∀ d, Forall (λ ev, is_callback ev = true) (events (m d)).

(** The mutex is taken at the start, released at the end and left alone in
    between. *)
Definition locks_once (evs : list Event) : Prop :=
  ∃ cbs, evs = Lock :: cbs ++ [Unlock] ∧ Forall (λ ev, is_callback ev = true) cbs.

(** The registries agree on everything but the identity of the next list
    node, which is not observable. *)
Definition same_registry (d d' : Dispatcher) : Prop :=
  operators_ d' = operators_ d
  ∧ operatorLookupTable_ d' = operatorLookupTable_ d
  ∧ backendFallbackKernels_ d' = backendFallbackKernels_ d
  ∧ backendsWithoutFallthrough_ d' = backendsWithoutFallthrough_ d
  ∧ listeners_ d' = listeners_ d.


(** ** Nodes of the operator list *)

Ltac case_nodes :=
  repeat match goal with
  | |- context [decide (?a = ?b)] =>
      destruct (decide (a = b)); simplify_eq; simpl; try done
  end.

Section nodes.
Implicit Types (l : list (OperatorHandle * OperatorDef)) (h : OperatorHandle).

Lemma lookup_node_None h l : lookup_node h l = None ↔ h ∉ l.*1.
Proof.
  induction l as [|[h' e] l IH]; simpl.
  - split; [intros _; apply not_elem_of_nil | done].
  - rewrite not_elem_of_cons. case_nodes.
    + split; [done|]. by intros [[] _].
    + rewrite IH. split; [auto|tauto].
Qed.

Lemma lookup_node_Some_elem h l e : lookup_node h l = Some e → (h, e) ∈ l.
Proof.
  induction l as [|[h' e'] l IH]; simpl; [done|].
  case_nodes; intros Heq.
  - injection Heq as ->. left.
  - right. auto.
Qed.

Lemma lookup_node_elem h l e : NoDup l.*1 → (h, e) ∈ l → lookup_node h l = Some e.
Proof.
  induction l as [|[h' e'] l IH]; simpl; intros Hnd Hin.
  - by apply elem_of_nil in Hin.
  - apply NoDup_cons in Hnd as [Hnot Hnd].
    apply elem_of_cons in Hin as [Heq|Hin].
    + injection Heq as -> ->. case_nodes.
    + case_nodes; [|auto].
      destruct Hnot. by apply (list_elem_of_fmap_2 fst) in Hin.
Qed.

Lemma lookup_node_app h l e' h' :
  lookup_node h (l ++ [(h', e')]) =
  match lookup_node h l with
  | Some e => Some e
  | None => if decide (h' = h) then Some e' else None
  end.
Proof.
  induction l as [|[h2 e2] l IH]; simpl; [done|].
  by destruct (decide (h2 = h)).
Qed.

Lemma lookup_update_node h h' f l :
  lookup_node h' (update_node h f l) =
  if decide (h' = h) then f <$> lookup_node h l else lookup_node h' l.
Proof.
  induction l as [|[h2 e2] l IH]; simpl; [by case_nodes|].
  destruct (decide (h2 = h)) as [->|Hne]; simpl; rewrite ?IH; case_nodes.
Qed.

Lemma fst_update_node h f l : (update_node h f l).*1 = l.*1.
Proof.
  induction l as [|[h2 e2] l IH]; [done|]. cbn [update_node].
  destruct (decide (h2 = h)); rewrite !fmap_cons; [done|]. by rewrite IH.
Qed.

Lemma update_node_update_node h f g l :
  update_node h f (update_node h g l) = update_node h (f ∘ g) l.
Proof.
  induction l as [|[h2 e2] l IH]; simpl; [done|].
  destruct (decide (h2 = h)) as [->|Hne]; simpl; rewrite ?IH; case_nodes.
Qed.

Lemma update_node_ext h f g l e :
  lookup_node h l = Some e → f e = g e → update_node h f l = update_node h g l.
Proof.
  induction l as [|[h2 e2] l IH]; simpl; [done|].
  destruct (decide (h2 = h)) as [->|Hne]; intros Hl Hfg.
  - injection Hl as ->. by rewrite Hfg.
  - f_equal; auto.
Qed.

Lemma update_node_app_fresh h f l e :
  lookup_node h l = None →
  update_node h f (l ++ [(h, e)]) = l ++ [(h, f e)].
Proof.
  induction l as [|[h2 e2] l IH]; simpl.
  - case_nodes.
  - destruct (decide (h2 = h)); [done|]. intros. f_equal; auto.
Qed.

Lemma erase_node_sublist h l : erase_node h l `sublist_of` l.
Proof.
  induction l as [|[h2 e2] l IH]; simpl; [done|].
  destruct (decide (h2 = h)); [by apply sublist_cons | by apply sublist_skip].
Qed.

Lemma lookup_erase_node h h' l :
  NoDup l.*1 →
  lookup_node h' (erase_node h l) =
  if decide (h' = h) then None else lookup_node h' l.
Proof.
  induction l as [|[h2 e2] l IH]; simpl; intros Hnd; [by case_nodes|].
  apply NoDup_cons in Hnd as [Hnot Hnd].
  destruct (decide (h2 = h)) as [->|Hne]; simpl; rewrite ?IH by done; case_nodes.
  by apply lookup_node_None.
Qed.

Lemma erase_node_NoDup h l : NoDup l.*1 → NoDup (erase_node h l).*1.
Proof.
  intros. eapply sublist_NoDup; [done|].
  apply fmap_sublist, erase_node_sublist.
Qed.

Lemma erase_node_elem h h' l : h' ∈ (erase_node h l).*1 → h' ∈ l.*1.
Proof.
  intros Hin. eapply elem_of_sublist; [done|].
  apply fmap_sublist, erase_node_sublist.
Qed.

End nodes.

(** ** Running the monad *)

Lemma bind_intro {A B} (m : M A) (f : A → M B) d a d1 ev1 r d2 ev2 :
  m d = (inr a, d1, ev1) → f a d1 = (r, d2, ev2) →
  (m ≫= f) d = (r, d2, ev1 ++ ev2).
Proof. unfold mbind, M_bind. by intros -> ->. Qed.

Lemma bind_throw {A B} (m : M A) (f : A → M B) d e d1 ev1 :
  m d = (inl e, d1, ev1) → (m ≫= f) d = (inl e, d1, ev1).
Proof. unfold mbind, M_bind. by intros ->. Qed.

Lemma bind_assoc {A B C} (m : M A) (f : A → M B) (g : B → M C) d :
  ((m ≫= f) ≫= g) d = (m ≫= λ a, f a ≫= g) d.
Proof.
  unfold mbind, M_bind, result, state, events.
  destruct (m d) as [[[e|a] d1] ev1]; [done|]. simpl.
  destruct (f a d1) as [[[e|b] d2] ev2]; [done|]. simpl.
  by rewrite (assoc_L (++)).
Qed.

Lemma lock_guard_intro {A} (body : M A) d r d1 evs :
  body d = (r, d1, evs) → lock_guard body d = (r, d1, Lock :: evs ++ [Unlock]).
Proof. unfold lock_guard. by intros ->. Qed.

Lemma deref_run h d e :
  lookup_node h (operators_ d) = Some e → deref h d = (inr e, d, []).
Proof. unfold deref. by intros ->. Qed.

Lemma assign_run h f d e :
  lookup_node h (operators_ d) = Some e →
  assign h f d = (inr (), set_operators (update_node h f) d, []).
Proof.
  intros Hl. unfold assign.
  by rewrite (bind_intro _ _ _ _ _ _ _ _ _ (deref_run _ _ _ Hl) eq_refl).
Qed.

Lemma handle_schema_run h d e s :
  lookup_node h (operators_ d) = Some e → schema_ (op e) = Some s →
  handle_schema h d = (inr s, d, []).
Proof.
  intros Hl Hs. unfold handle_schema.
  eapply (bind_intro _ _ _ _ _ []); [by apply deref_run|].
  simpl. by rewrite Hs.
Qed.

(** Lookups in the operator list after assignments through the handle. *)
Ltac solve_lookup :=
  unfold stored, created;
  cbn [operators_ set_operators set_lookup emplace_back set_fallbacks
       set_without_fallthrough push_listener];
  rewrite ?lookup_update_node, ?lookup_node_app;
  repeat match goal with
  | H : lookup_node _ _ = _ |- _ => rewrite H
  end;
  repeat match goal with
  | |- context [decide (?a = ?b)] =>
      destruct (decide (a = b)); [|congruence]
  end;
  cbn [fmap option_fmap option_map]; reflexivity.

Ltac run_prim :=
  lazymatch goal with
  | |- deref _ _ = _ => eapply deref_run; solve_lookup
  | |- assign _ _ _ = _ => eapply assign_run; solve_lookup
  | |- handle_schema _ _ = _ =>
      eapply handle_schema_run; [solve_lookup | cbn; eassumption || reflexivity]
  | |- _ => reflexivity
  end.

Ltac run_step :=
  lazymatch goal with
  | |- ((_ ≫= _) ≫= _) _ = _ => rewrite bind_assoc
  | |- (_ ≫= _) _ = _ =>
      first [ eapply bind_intro; [run_prim | cbv beta]
            | eapply bind_throw; reflexivity ]
  | |- lock_guard _ _ = _ => eapply lock_guard_intro
  end.

Ltac run := repeat run_step.

(** An assertion at the head of the program that holds. *)
Ltac pass_assert :=
  lazymatch goal with
  | |- (TORCH_INTERNAL_ASSERT (bool_decide ?P) ≫= _) _ = _ =>
      rewrite (bool_decide_true P) by (simpl; first [done | congruence | lia])
  end.

(** ** Preservation of the invariant by the elementary changes *)

Lemma entry_ok_perm toks toks' h e :
  def_names h toks' ≡ₚ def_names h toks →
  impl_keys h toks' ≡ₚ impl_keys h toks →
  entry_ok toks h e → entry_ok toks' h e.
Proof.
  intros Hd Hi [? ? ? ? ? ?]. split; try done.
  - by rewrite Hd.
  - by rewrite Hi.
Qed.

Lemma registry_ok_frame d d' toks toks' :
  operators_ d' = operators_ d →
  next_node_ d' = next_node_ d →
  operatorLookupTable_ d' = operatorLookupTable_ d →
  (∀ h, def_names h toks' ≡ₚ def_names h toks) →
  (∀ h, impl_keys h toks' ≡ₚ impl_keys h toks) →
  (∀ t, t ∈ toks' → token_op t = None ∨ t ∈ toks) →
  registry_ok (d, toks) → registry_ok (d', toks').
Proof.
  intros Ho Hn Ht Hd Hi Hin [? ? ? ? ?]; simpl in *.
  split; simpl; rewrite ?Ho, ?Hn, ?Ht; try done.
  - intros h e He. eapply entry_ok_perm; eauto.
  - intros t h n Ht' Hop. destruct (Hin t Ht') as [Hnone|?]; [congruence|eauto].
Qed.

Lemma registry_ok_perm d toks toks' :
  toks ≡ₚ toks' → registry_ok (d, toks) → registry_ok (d, toks').
Proof.
  intros Hp. apply registry_ok_frame; try done.
  - intros h. unfold def_names. by rewrite Hp.
  - intros h. unfold impl_keys. by rewrite Hp.
  - intros t Ht. right. by rewrite Hp.
Qed.

Lemma registry_ok_stored d toks toks' h e e' :
  registry_ok (d, toks) →
  lookup_node h (operators_ d) = Some e →
  name_ (op e') = name_ (op e) →
  entry_ok toks' h e' →
  (∀ h', h' ≠ h → def_names h' toks' ≡ₚ def_names h' toks) →
  (∀ h', h' ≠ h → impl_keys h' toks' ≡ₚ impl_keys h' toks) →
  (∀ t, t ∈ toks' → token_op t = None ∨ t ∈ toks ∨ token_op t = Some (h, name_ (op e))) →
  registry_ok (stored h e' d, toks').
Proof.
  intros [Hnd Hfr Htab Hent Htok] Hl Hname He' Hd Hi Hin; simpl in *.
  split; simpl.
  - by rewrite fst_update_node.
  - by rewrite fst_update_node.
  - intros n h2. rewrite Htab. setoid_rewrite lookup_update_node.
    destruct (decide (h2 = h)) as [->|Hne]; [|done].
    rewrite Hl. simpl. split; intros (e2 & He2 & <-); simplify_eq; eauto.
  - intros h2 e2. rewrite lookup_update_node.
    destruct (decide (h2 = h)) as [->|Hne].
    + rewrite Hl. simpl. by intros [= <-].
    + intros He2. eapply entry_ok_perm; [by apply Hd|by apply Hi|eauto].
  - intros t h2 n Ht Hop. setoid_rewrite lookup_update_node.
    destruct (Hin t Ht) as [?|[Ht'|Ht']]; [congruence| |].
    + destruct (Htok t h2 n Ht' Hop) as (e2 & He2 & <-).
      destruct (decide (h2 = h)) as [->|Hne]; [|eauto].
      rewrite Hl. simpl. simplify_eq. eauto.
    + simplify_eq. rewrite decide_True by done. rewrite Hl. simpl. eauto.
Qed.

Lemma registry_ok_created d toks toks' n e' :
  registry_ok (d, toks) →
  operatorLookupTable_ d !! n = None →
  name_ (op e') = n →
  entry_ok toks' (next_node_ d) e' →
  (∀ h', h' ≠ next_node_ d → def_names h' toks' ≡ₚ def_names h' toks) →
  (∀ h', h' ≠ next_node_ d → impl_keys h' toks' ≡ₚ impl_keys h' toks) →
  (∀ t, t ∈ toks' → token_op t = None ∨ t ∈ toks ∨ token_op t = Some (next_node_ d, n)) →
  registry_ok (created n e' d, toks').
Proof.
  intros [Hnd Hfr Htab Hent Htok] Hnone Hname He' Hd Hi Hin; simpl in *.
  assert (lookup_node (next_node_ d) (operators_ d) = None) as Hfresh.
  { apply lookup_node_None. intros Hn%Hfr. lia. }
  split; simpl.
  - rewrite fmap_app. apply NoDup_app. split_and!; [done| |apply NoDup_singleton].
    intros h Hh%Hfr [->|[]%elem_of_nil]%elem_of_cons. simpl in *; lia.
  - intros h. rewrite fmap_app, elem_of_app.
    intros [Hh%Hfr|[->|[]%elem_of_nil]%elem_of_cons]; simpl; lia.
  - intros n2 h2. setoid_rewrite lookup_node_app.
    destruct (decide (n = n2)) as [<-|Hne].
    + rewrite lookup_insert_eq. split.
      * intros [= <-]. rewrite Hfresh, decide_True by done. eauto.
      * intros (e2 & He2 & Hn2).
        destruct (lookup_node h2 (operators_ d)) as [e3|] eqn:He3.
        -- simplify_eq. assert (operatorLookupTable_ d !! name_ (op e2) = Some h2) as Hs
             by (apply Htab; eauto).
           congruence.
        -- by destruct (decide (next_node_ d = h2)) as [->|].
    + rewrite lookup_insert_ne by done. rewrite Htab.
      split; intros (e2 & He2 & Hn2).
      * rewrite He2. eauto.
      * destruct (lookup_node h2 (operators_ d)) as [e3|] eqn:He3; [simplify_eq; eauto|].
        destruct (decide (next_node_ d = h2)); simplify_eq.
  - intros h2 e2. rewrite lookup_node_app.
    destruct (lookup_node h2 (operators_ d)) as [e3|] eqn:He3.
    + intros [= <-]. eapply entry_ok_perm; [apply Hd|apply Hi|eauto]; by intros ->; congruence.
    + destruct (decide (next_node_ d = h2)) as [<-|]; [|done]. by intros [= <-].
  - intros t h2 n2 Ht Hop. setoid_rewrite lookup_node_app.
    destruct (Hin t Ht) as [?|[Ht'|Ht']]; [congruence| |].
    + destruct (Htok t h2 n2 Ht' Hop) as (e2 & He2 & <-). rewrite He2. eauto.
    + simplify_eq. rewrite Hfresh, decide_True by done. eauto.
Qed.

Lemma registry_ok_erased d toks toks' h e :
  registry_ok (d, toks) →
  lookup_node h (operators_ d) = Some e →
  def_names h toks' = [] →
  impl_keys h toks' = [] →
  (∀ h', h' ≠ h → def_names h' toks' ≡ₚ def_names h' toks) →
  (∀ h', h' ≠ h → impl_keys h' toks' ≡ₚ impl_keys h' toks) →
  (∀ t, t ∈ toks' → token_op t = None ∨ t ∈ toks) →
  registry_ok (erased h (name_ (op e)) d, toks').
Proof.
  intros [Hnd Hfr Htab Hent Htok] Hl Hnodef Hnoimpl Hd Hi Hin; simpl in *.
  split; simpl.
  - by apply erase_node_NoDup.
  - intros h2 Hh2%erase_node_elem. auto.
  - intros n2 h2. setoid_rewrite lookup_erase_node; [|done].
    destruct (decide (name_ (op e) = n2)) as [<-|Hne].
    + rewrite lookup_delete_eq. split; [done|].
      intros (e2 & He2 & Hn2). destruct (decide (h2 = h)) as [->|Hne]; [done|].
      assert (operatorLookupTable_ d !! name_ (op e) = Some h2) as H1
        by (apply Htab; eauto).
      assert (operatorLookupTable_ d !! name_ (op e) = Some h) as H2
        by (apply Htab; eauto).
      congruence.
    + rewrite lookup_delete_ne by done. rewrite Htab.
      destruct (decide (h2 = h)) as [->|Hne2]; [|done].
      split; [|by intros (? & ? & ?)].
      intros (e2 & He2 & Hn2). congruence.
  - intros h2 e2. rewrite lookup_erase_node by done.
    destruct (decide (h2 = h)) as [->|Hne]; [done|].
    intros He2. eapply entry_ok_perm; [by apply Hd|by apply Hi|eauto].
  - intros t h2 n Ht Hop. setoid_rewrite lookup_erase_node; [|done].
    destruct (Hin t Ht) as [?|Ht']; [congruence|].
    destruct (decide (h2 = h)) as [->|Hne]; [|eauto].
    exfalso. destruct t as [h3 n3|h3 n3 dk kh|]; simplify_eq/=.
    + assert (n ∈ def_names h toks') as Hx; [|rewrite Hnodef in Hx; by apply elem_of_nil in Hx].
      apply list_elem_of_omap. eexists; split; [done|]. simpl. by rewrite decide_True.
    + assert ((dk, kh) ∈ impl_keys h toks') as Hx; [|rewrite Hnoimpl in Hx; by apply elem_of_nil in Hx].
      apply list_elem_of_omap. eexists; split; [done|]. simpl. by rewrite decide_True.
Qed.

(** ** The member functions, case by case *)

Lemma lookup_stored h h' e e0 d :
  lookup_node h (operators_ d) = Some e0 →
  lookup_node h' (operators_ (stored h e d)) =
  if decide (h' = h) then Some e else lookup_node h' (operators_ d).
Proof.
  intros Hl. unfold stored. simpl. rewrite lookup_update_node, Hl.
  by destruct (decide (h' = h)).
Qed.

Lemma lookup_created n e d :
  lookup_node (next_node_ d) (operators_ d) = None →
  lookup_node (next_node_ d) (operators_ (created n e d)) = Some e.
Proof.
  intros Hl. simpl. rewrite lookup_node_app, Hl. by rewrite decide_True.
Qed.

Lemma erase_update_node h f (l : list (OperatorHandle * OperatorDef)) :
  erase_node h (update_node h f l) = erase_node h l.
Proof.
  induction l as [|[h2 e2] l IH]; simpl; [done|].
  destruct (decide (h2 = h)) as [->|Hne]; simpl; rewrite ?IH; case_nodes.
Qed.

Lemma erased_stored h n e d : erased h n (stored h e d) = erased h n d.
Proof.
  unfold erased, stored, set_lookup, set_operators. simpl.
  by rewrite erase_update_node.
Qed.

Lemma findOrRegisterName_found n d h :
  findOperatorByName n d = Some h → findOrRegisterName_ n d = (inr h, d, []).
Proof.
  intros Hf. unfold findOrRegisterName_.
  eapply (bind_intro _ _ _ _ _ []); [reflexivity|]. by rewrite Hf.
Qed.

Lemma findOrRegisterName_fresh n d :
  findOperatorByName n d = None →
  findOrRegisterName_ n d =
  (inr (next_node_ d), created n (new_OperatorDef n) d, []).
Proof.
  intros Hf. unfold findOrRegisterName_.
  eapply (bind_intro _ _ _ _ _ []); [reflexivity|]. rewrite Hf.
  unfold findOperatorByName in Hf.
  unfold mbind, M_bind, modify, mret, M_ret, created, emplace, set_lookup,
    emplace_back; simpl. by rewrite Hf.
Qed.

Lemma checkSchemaCompatibility_run h s d e s0 :
  lookup_node h (operators_ d) = Some e → schema_ (op e) = Some s0 →
  checkSchemaCompatibility h s d =
  (match schema_check s0 s with Some f => inl f | None => inr () end, d, []).
Proof.
  intros Hl Hs. unfold checkSchemaCompatibility, schema_check.
  eapply (bind_intro _ _ _ _ _ []); [by eapply handle_schema_run|].
  destruct (schema_eqb s0 s); [|done].
  eapply (bind_intro _ _ _ _ _ []); [reflexivity|].
  destruct (isDefaultAliasAnalysisKind s); [done|].
  destruct (isDefaultAliasAnalysisKind s0);
    by destruct (bool_decide (aliasAnalysis s0 = aliasAnalysis s)).
Qed.

Lemma cleanup_run h n d e :
  lookup_node h (operators_ d) = Some e →
  cleanup h n d =
  if bool_decide (0 = def_and_impl_count e) then
    if prepareForDeregistration (op e) then (inr (), erased h n d, [])
    else (inl InternalAssert, d, [])
  else (inr (), d, []).
Proof.
  intros Hl. unfold cleanup.
  destruct (bool_decide (0 = def_and_impl_count e)) eqn:Hc;
    [destruct (prepareForDeregistration (op e)) eqn:Hp|].
  all: etransitivity; [run; rewrite Hc, ?Hp; run; reflexivity | reflexivity].
Qed.

Lemma update_created f n e0 d :
  lookup_node (next_node_ d) (operators_ d) = None →
  set_operators (update_node (next_node_ d) f) (created n e0 d) = created n (f e0) d.
Proof.
  intros Hl. unfold created, set_operators. simpl.
  by rewrite update_node_app_fresh.
Qed.

Lemma update_stored h f e d :
  set_operators (update_node h f) (stored h e d) = stored h (f e) d.
Proof.
  unfold stored, set_operators. simpl. by rewrite update_node_update_node.
Qed.

Lemma update_plain h f d e :
  lookup_node h (operators_ d) = Some e →
  set_operators (update_node h f) d = stored h (f e) d.
Proof.
  intros Hl. unfold stored, set_operators. f_equal.
  by apply (update_node_ext _ _ _ _ e).
Qed.


Lemma registerDef_fresh s d :
  findOperatorByName (operator_name s) d = None →
  lookup_node (next_node_ d) (operators_ d) = None →
  registerDef s d =
  (inr (DeregisterDef (next_node_ d) (operator_name s)),
   created (operator_name s)
     (with_def_and_impl_count S (with_def_count S
        (with_op (registerSchema s) (new_OperatorDef (operator_name s))))) d,
   Lock :: ((λ l, OnOperatorRegistered l (next_node_ d)
               (created (operator_name s)
                  (with_op (registerSchema s) (new_OperatorDef (operator_name s))) d))
            <$> listeners_ d) ++ [Unlock]).
Proof.
  intros Hf Hl. unfold registerDef.
  etransitivity.
  { run. eapply bind_intro; [by apply findOrRegisterName_fresh|cbv beta].
    run. cbn [def_count new_OperatorDef]. rewrite bool_decide_true by done.
    run. reflexivity. }
  rewrite !update_created by done. by rewrite !app_nil_r.
Qed.

Lemma registerDef_undefined s d h e :
  findOperatorByName (operator_name s) d = Some h →
  lookup_node h (operators_ d) = Some e →
  def_count e = 0 →
  registerDef s d =
  (inr (DeregisterDef h (operator_name s)),
   stored h (with_def_and_impl_count S (with_def_count S
               (with_op (registerSchema s) e))) d,
   Lock :: ((λ l, OnOperatorRegistered l h
               (stored h (with_op (registerSchema s) e) d))
            <$> listeners_ d) ++ [Unlock]).
Proof.
  intros Hf Hl Hd. unfold registerDef.
  etransitivity.
  { run. eapply bind_intro; [by apply findOrRegisterName_found|cbv beta].
    run. rewrite bool_decide_true by done.
    run. reflexivity. }
  rewrite (update_plain h _ d e Hl), !update_stored. by rewrite !app_nil_r.
Qed.

Lemma registerDef_defined s d h e s0 :
  findOperatorByName (operator_name s) d = Some h →
  lookup_node h (operators_ d) = Some e →
  def_count e ≠ 0 →
  schema_ (op e) = Some s0 →
  registerDef s d =
  match schema_check s0 s with
  | Some f => (inl f, d, [Lock; Unlock])
  | None =>
      (inr (DeregisterDef h (operator_name s)),
       stored h (with_def_and_impl_count S (with_def_count S e)) d,
       [Lock; Unlock])
  end.
Proof.
  intros Hf Hl Hd Hs. unfold registerDef.
  pose proof (checkSchemaCompatibility_run h s d e s0 Hl Hs) as Hc.
  destruct (schema_check s0 s) as [f|].
  - etransitivity.
    { run. eapply bind_intro; [by apply findOrRegisterName_found|cbv beta].
      run. rewrite bool_decide_false by done.
      eapply bind_throw. apply Hc. }
    done.
  - etransitivity.
    { run. eapply bind_intro; [by apply findOrRegisterName_found|cbv beta].
      run. rewrite bool_decide_false by done.
      eapply bind_intro; [apply Hc|cbv beta].
      run. reflexivity. }
    by rewrite (update_plain h _ d e Hl), !update_stored.
Qed.


Lemma registerImpl_fresh n dk k inferred dbg d :
  findOperatorByName n d = None →
  lookup_node (next_node_ d) (operators_ d) = None →
  registerImpl n dk k inferred dbg d =
  (inr (DeregisterImpl (next_node_ d) n dk 0),
   created n
     (with_def_and_impl_count S
        (with_op (λ _, (registerKernel dk k inferred dbg (new_OperatorEntry n)).2)
           (new_OperatorDef n))) d,
   [Lock; Unlock]).
Proof.
  intros Hf Hl. unfold registerImpl.
  etransitivity.
  { run. eapply bind_intro; [by apply findOrRegisterName_fresh|cbv beta].
    run. reflexivity. }
  by rewrite !update_created by done.
Qed.

Lemma registerImpl_found n dk k inferred dbg d h e :
  findOperatorByName n d = Some h →
  lookup_node h (operators_ d) = Some e →
  registerImpl n dk k inferred dbg d =
  (inr (DeregisterImpl h n dk (next_kernel_ (op e))),
   stored h
     (with_def_and_impl_count S
        (with_op (λ _, (registerKernel dk k inferred dbg (op e)).2) e)) d,
   [Lock; Unlock]).
Proof.
  intros Hf Hl. unfold registerImpl.
  etransitivity.
  { run. eapply bind_intro; [by apply findOrRegisterName_found|cbv beta].
    run. reflexivity. }
  by rewrite (update_plain h _ d e Hl), !update_stored.
Qed.

Lemma deregisterDef_run h n d e s :
  lookup_node h (operators_ d) = Some e →
  schema_ (op e) = Some s →
  operator_name s = n →
  0 < def_count e →
  0 < def_and_impl_count e →
  let e1 := with_def_and_impl_count pred (with_def_count pred e) in
  let callbacks :=
    if bool_decide (0 = def_count e1) then
      (λ l, OnOperatorDeregistered l h (stored h e1 d)) <$> listeners_ d
    else [] in
  deregisterDef_ h n d =
  if bool_decide (0 = def_and_impl_count (def_released e)) then
    if prepareForDeregistration (op (def_released e)) then
      (inr (), erased h n d, Lock :: callbacks ++ [Unlock])
    else
      (inl InternalAssert, stored h (def_released e) d,
       Lock :: callbacks ++ [Unlock])
  else
    (inr (), stored h (def_released e) d, Lock :: callbacks ++ [Unlock]).
Proof.
  intros Hl Hs Hn Hd Hdi e1 callbacks. unfold deregisterDef_.
  pose proof (cleanup_run h n (stored h (def_released e) d) (def_released e)) as Hc.
  rewrite erased_stored in Hc.
  specialize (Hc ltac:(by erewrite lookup_stored, decide_True)).
  unfold def_released in *. fold e1 in Hc |- *.
  subst callbacks. revert Hc.
  destruct (bool_decide (0 = def_count e1)) eqn:Hz;
    (destruct (bool_decide (0 = def_and_impl_count _)) eqn:Hz2;
      [destruct (prepareForDeregistration _) eqn:Hp|]); intros Hc.
  all: etransitivity;
    [ run; rewrite bool_decide_true by done; run;
      rewrite bool_decide_true by done; run;
      rewrite bool_decide_true by done; run;
      rewrite (update_plain h _ d e Hl), !update_stored;
      fold e1; rewrite Hz; run; rewrite ?update_stored; apply Hc
    | cbn [listeners_ stored set_operators]; by rewrite ?app_nil_r ].
Qed.

Lemma deregisterKernel_name dk kh o o' :
  deregisterKernel_ dk kh o = Some o' → name_ o' = name_ o ∧ schema_ o' = schema_ o.
Proof.
  unfold deregisterKernel_. destruct (erase_kernel _ _); simpl; [|done].
  by intros [= <-].
Qed.

Lemma deregisterImpl_run h n dk kh d e entry :
  lookup_node h (operators_ d) = Some e →
  deregisterKernel_ dk kh (op e) = Some entry →
  name_ (op e) = n →
  0 < def_and_impl_count e →
  let e' := with_def_and_impl_count pred (with_op (λ _, entry) e) in
  deregisterImpl_ h n dk kh d =
  if bool_decide (0 = def_and_impl_count e') then
    if prepareForDeregistration (op e') then
      (inr (), erased h n d, [Lock; Unlock])
    else
      (inl InternalAssert, stored h e' d, [Lock; Unlock])
  else
    (inr (), stored h e' d, [Lock; Unlock]).
Proof.
  intros Hl Hk Hn Hdi e'. unfold deregisterImpl_.
  destruct (deregisterKernel_name _ _ _ _ Hk) as [Hname _].
  pose proof (cleanup_run h n (stored h e' d) e') as Hc.
  rewrite erased_stored in Hc.
  specialize (Hc ltac:(by erewrite lookup_stored, decide_True)).
  revert Hc.
  destruct (bool_decide (0 = def_and_impl_count _)) eqn:Hz2;
    [destruct (prepareForDeregistration _) eqn:Hp|]; intros Hc.
  all: etransitivity;
    [ run; rewrite Hk; run; pass_assert; run; pass_assert; run;
      rewrite (update_plain h _ d e Hl), !update_stored; apply Hc
    | done ].
Qed.

Lemma registerFallback_run k kern d :
  registerFallback k kern d =
  match backendFallbackKernels_ d !! k with
  | Some _ => (inl DuplicateFallback, d, [])
  | None =>
      (inr (DeregisterFallback k),
       (if isFallthrough kern
        then set_without_fallthrough (remove (backendsWithoutFallthrough_ d) k)
               (set_fallbacks (<[k := kern]> (backendFallbackKernels_ d)) d)
        else set_fallbacks (<[k := kern]> (backendFallbackKernels_ d)) d),
       [])
  end.
Proof.
  unfold registerFallback, setKernel.
  destruct (backendFallbackKernels_ d !! k) as [old|] eqn:Hk.
  - etransitivity; [run; cbv zeta; rewrite Hk; run; reflexivity|].
    simpl. by destruct d.
  - destruct (isFallthrough kern) eqn:Hf.
    + etransitivity;
        [run; cbv zeta; rewrite Hk; run; simpl; rewrite Hf; run; reflexivity|].
      done.
    + etransitivity;
        [run; cbv zeta; rewrite Hk; run; simpl; rewrite Hf; run; reflexivity|].
      done.
Qed.

Lemma deregisterFallback_run k d :
  deregisterFallback_ k d =
  (match backendFallbackKernels_ d !! k with
   | Some _ => inr ()
   | None => inl InternalAssert
   end,
   set_without_fallthrough (add (backendsWithoutFallthrough_ d) k)
     (set_fallbacks (delete k (backendFallbackKernels_ d)) d),
   []).
Proof.
  unfold deregisterFallback_, removeKernelIfExists.
  destruct (backendFallbackKernels_ d !! k) as [old|] eqn:Hk.
  - etransitivity; [run; cbv zeta; rewrite Hk; run; reflexivity|]. done.
  - etransitivity; [run; cbv zeta; rewrite Hk; run; reflexivity|]. simpl.
    by rewrite delete_id.
Qed.

Lemma replay_run listener (l : list (OperatorHandle * OperatorDef)) d :
  for_each l (λ iter,
    if bool_decide (0 < def_count iter.2) then
      onOperatorRegistered listener iter.1
    else mret ()) d =
  (inr (), d,
   (λ iter, OnOperatorRegistered listener iter.1 d)
     <$> filter (λ iter, 0 < def_count iter.2) l).
Proof.
  induction l as [|iter l IH]; [done|].
  cbn [for_each]. rewrite filter_cons.
  destruct (decide (0 < def_count iter.2)) as [Hpos|Hpos].
  - rewrite bool_decide_true by done.
    eapply (bind_intro _ _ _ _ _ [_]); [reflexivity|]. by rewrite IH.
  - rewrite bool_decide_false by done.
    eapply (bind_intro _ _ _ _ _ []); [reflexivity|]. by rewrite IH.
Qed.

Lemma addRegistrationListener_run listener d :
  addRegistrationListener listener d =
  (inr (), push_listener listener d,
   Lock :: ((λ iter, OnOperatorRegistered listener iter.1 d)
              <$> filter (λ iter, 0 < def_count iter.2) (operators_ d))
        ++ [Unlock]).
Proof.
  unfold addRegistrationListener.
  etransitivity.
  { run. eapply bind_intro; [apply replay_run|cbv beta]. reflexivity. }
  simpl. by rewrite app_nil_r.
Qed.

(** ** The handles that are alive *)

Lemma def_names_other h h' n t toks :
  token_op t = Some (h, n) → h' ≠ h → def_names h' (t :: toks) = def_names h' toks.
Proof.
  intros Ht Hne. destruct t; simplify_eq/=; unfold def_names; simpl; [|done].
  by rewrite decide_False.
Qed.

Lemma impl_keys_other h h' n t toks :
  token_op t = Some (h, n) → h' ≠ h → impl_keys h' (t :: toks) = impl_keys h' toks.
Proof.
  intros Ht Hne. destruct t; simplify_eq/=; unfold impl_keys; simpl; [done|].
  by rewrite decide_False.
Qed.

Lemma def_names_def h n toks :
  def_names h (DeregisterDef h n :: toks) = n :: def_names h toks.
Proof. unfold def_names. simpl. by rewrite decide_True. Qed.

Lemma impl_keys_def h h' n toks :
  impl_keys h (DeregisterDef h' n :: toks) = impl_keys h toks.
Proof. done. Qed.

Lemma def_names_impl h h' n dk kh toks :
  def_names h (DeregisterImpl h' n dk kh :: toks) = def_names h toks.
Proof. done. Qed.

Lemma impl_keys_impl h n dk kh toks :
  impl_keys h (DeregisterImpl h n dk kh :: toks) = (dk, kh) :: impl_keys h toks.
Proof. unfold impl_keys. simpl. by rewrite decide_True. Qed.

Lemma no_tokens_of_missing d toks h :
  registry_ok (d, toks) → lookup_node h (operators_ d) = None →
  def_names h toks = [] ∧ impl_keys h toks = [].
Proof.
  intros [_ _ _ _ Htok] Hl; simpl in *.
  split.
  - destruct (def_names h toks) as [|n l] eqn:Hd; [done|].
    assert (n ∈ def_names h toks) as Hin by (rewrite Hd; left).
    apply list_elem_of_omap in Hin as (t & Ht & Hn).
    destruct t as [h' n'| |]; try done. case_decide; simplify_eq.
    destruct (Htok _ h n Ht eq_refl) as (e & He & _). congruence.
  - destruct (impl_keys h toks) as [|k l] eqn:Hd; [done|].
    assert (k ∈ impl_keys h toks) as Hin by (rewrite Hd; left).
    apply list_elem_of_omap in Hin as (t & Ht & Hn).
    destruct t as [|h' n' dk kh|]; try done. case_decide; simplify_eq.
    destruct (Htok _ h n' Ht eq_refl) as (e & He & _). congruence.
Qed.

Lemma erase_kernel_Some key l :
  key ∈ kernel_key <$> l →
  ∃ l', erase_kernel key l = Some l' ∧
        kernel_key <$> l ≡ₚ key :: (kernel_key <$> l').
Proof.
  induction l as [|x l IH]; [by intros ?%elem_of_nil|].
  rewrite fmap_cons. intros Hin. cbn [erase_kernel].
  destruct (decide (kernel_key x = key)) as [<-|Hne]; [eauto|].
  apply elem_of_cons in Hin as [?|Hin]; [congruence|].
  destruct (IH Hin) as (l' & -> & Hp). eexists; split; [done|].
  rewrite fmap_cons, Hp. apply Permutation_swap.
Qed.

(** ** The invariant holds in every reachable registry *)

Lemma registry_ok_fresh d toks :
  registry_ok (d, toks) → lookup_node (next_node_ d) (operators_ d) = None.
Proof.
  intros [_ Hfr _ _ _]; simpl in *.
  apply lookup_node_None. intros Hn%Hfr. lia.
Qed.

Lemma registry_ok_found d toks n h :
  registry_ok (d, toks) → findOperatorByName n d = Some h →
  ∃ e, lookup_node h (operators_ d) = Some e ∧ name_ (op e) = n ∧ entry_ok toks h e.
Proof.
  intros [_ _ Htab Hent _] Hf; simpl in *.
  apply Htab in Hf as (e & He & Hn). eauto.
Qed.

Lemma registry_ok_add d toks t :
  registry_ok (d, t :: toks) → registry_ok (d, toks ++ [t]).
Proof. apply registry_ok_perm, Permutation_cons_append. Qed.

(** The side conditions on the handles of the other operators. *)
Ltac other_handles :=
  intros;
  first [ by erewrite def_names_other
        | by erewrite impl_keys_other
        | done ].

Ltac new_handle Hn :=
  let t := fresh "t" in
  intros t [->|?]%elem_of_cons; simpl; [|by auto];
  right; right; by rewrite ?Hn.

Lemma registerDef_ok s d toks :
  registry_ok (d, toks) → registry_ok (keep_handle (registerDef s d) toks).
Proof.
  intros Hok. unfold keep_handle.
  destruct (findOperatorByName (operator_name s) d) as [h|] eqn:Hf.
  - destruct (registry_ok_found _ _ _ _ Hok Hf) as (e & He & Hn & [? ? ? ? Hsch Hsn]).
    destruct (decide (def_count e = 0)) as [Hz|Hnz].
    + rewrite (registerDef_undefined _ _ _ _ Hf He Hz). simpl.
      apply registry_ok_add.
      eapply (registry_ok_stored _ _ _ _ _ _ Hok He);
        [done| |other_handles|other_handles|new_handle Hn].
      split; rewrite ?def_names_def, ?impl_keys_def; simpl;
        [lia|done|lia|lia| |].
      * split; [done|lia].
      * by intros s' [= <-].
    + destruct (schema_ (op e)) as [s0|] eqn:Hs; [|by destruct Hnz; apply Hsch].
      rewrite (registerDef_defined _ _ _ _ _ Hf He Hnz Hs).
      destruct (schema_check s0 s); simpl; [done|].
      apply registry_ok_add.
      eapply (registry_ok_stored _ _ _ _ _ _ Hok He);
        [done| |other_handles|other_handles|new_handle Hn].
      split; rewrite ?def_names_def, ?impl_keys_def; simpl;
        [lia|done|lia|lia| |].
      * rewrite Hs. split; [done|lia].
      * intros s1 Hs1. rewrite Hs in Hs1. by apply Hsn.
  - pose proof (registry_ok_fresh _ _ Hok) as Hfresh.
    destruct (no_tokens_of_missing _ _ _ Hok Hfresh) as [Hnd Hni].
    rewrite (registerDef_fresh _ _ Hf Hfresh). simpl.
    apply registry_ok_add.
    eapply (registry_ok_created _ _ _ _ _ Hok Hf);
      [done| |other_handles|other_handles|new_handle Hf].
    split; rewrite ?def_names_def, ?impl_keys_def, ?Hnd, ?Hni; simpl;
      [done|done|done|lia| |].
    * split; [done|lia].
    * by intros s' [= <-].
Qed.

Lemma registerImpl_ok n dk k inferred dbg d toks :
  registry_ok (d, toks) →
  registry_ok (keep_handle (registerImpl n dk k inferred dbg d) toks).
Proof.
  intros Hok. unfold keep_handle.
  destruct (findOperatorByName n d) as [h|] eqn:Hf.
  - destruct (registry_ok_found _ _ _ _ Hok Hf) as (e & He & Hn & [? Himpl ? ? Hsch Hsn]).
    rewrite (registerImpl_found _ _ _ _ _ _ _ _ Hf He). simpl.
    apply registry_ok_add.
    eapply (registry_ok_stored _ _ _ _ _ _ Hok He);
      [done| |other_handles|other_handles|new_handle Hn].
    split; rewrite ?def_names_impl, ?impl_keys_impl; simpl;
      [lia| |rewrite length_app; simpl; lia|lia|done|done].
    rewrite fmap_app, Himpl. simpl. by rewrite <-Permutation_cons_append.
  - pose proof (registry_ok_fresh _ _ Hok) as Hfresh.
    destruct (no_tokens_of_missing _ _ _ Hok Hfresh) as [Hnd Hni].
    rewrite (registerImpl_fresh _ _ _ _ _ _ Hf Hfresh). simpl.
    apply registry_ok_add.
    eapply (registry_ok_created _ _ _ _ _ Hok Hf);
      [done| |other_handles|other_handles|new_handle Hf].
    split; rewrite ?def_names_impl, ?impl_keys_impl, ?Hnd, ?Hni; simpl;
      [done|done|done|lia|done|done].
Qed.

Ltac old_handle :=
  let t := fresh "t" in
  intros t ?; right; try left; by right.

Lemma deregisterDef_ok h n d toks :
  registry_ok (d, DeregisterDef h n :: toks) →
  result (deregisterDef_ h n d) = inr () ∧
  registry_ok (state (deregisterDef_ h n d), toks).
Proof.
  intros Hok.
  destruct (ok_tokens _ Hok (DeregisterDef h n) h n) as (e & He & Hn);
    [left|done|]. simpl in He.
  destruct (ok_entries _ Hok h e He) as [Hdef Himpl Hcnt Hpos Hsch Hsn].
  cbn [fst snd] in *. rewrite def_names_def in Hdef. rewrite impl_keys_def in Himpl.
  simpl in Hdef.
  destruct (schema_ (op e)) as [s|] eqn:Hs; [|destruct Hsch as [Hsch _]; specialize (Hsch eq_refl); lia].
  specialize (Hsn s eq_refl).
  rewrite (deregisterDef_run h n d e s He Hs) by (congruence || lia).
  unfold def_released. cbn [def_count with_def_and_impl_count with_def_count].
  destruct (bool_decide (0 = pred (def_count e))) eqn:Hz.
  - apply bool_decide_eq_true in Hz.
    cbn [def_and_impl_count with_op with_def_and_impl_count with_def_count op].
    destruct (bool_decide (0 = pred (def_and_impl_count e))) eqn:Hz2.
    + apply bool_decide_eq_true in Hz2.
      assert (kernels_ (op e) = []) as Hk by (apply length_zero_iff_nil; lia).
      unfold prepareForDeregistration, hasSchema; simpl. rewrite Hk. simpl.
      split; [done|]. rewrite <-Hn.
      eapply (registry_ok_erased _ _ _ _ _ Hok He);
        [|by apply Permutation_nil_r; rewrite <-Himpl, Hk
         |other_handles|other_handles|old_handle].
      apply length_zero_iff_nil. lia.
    + apply bool_decide_eq_false in Hz2. simpl. split; [done|].
      eapply (registry_ok_stored _ _ _ _ _ _ Hok He);
        [done| |other_handles|other_handles|old_handle].
      split; simpl; [lia|done|lia|lia|split; intros; first [done|lia]|done].
  - apply bool_decide_eq_false in Hz.
    cbn [def_and_impl_count with_op with_def_and_impl_count with_def_count op].
    rewrite bool_decide_false by lia. simpl. split; [done|].
    eapply (registry_ok_stored _ _ _ _ _ _ Hok He);
      [done| |other_handles|other_handles|old_handle].
    split; simpl; [lia|done|lia|lia| |].
    + rewrite Hs. split; [done|lia].
    + intros s1 Hs1. rewrite Hs in Hs1. simplify_eq. congruence.
Qed.

Lemma deregisterImpl_ok h n dk kh d toks :
  registry_ok (d, DeregisterImpl h n dk kh :: toks) →
  result (deregisterImpl_ h n dk kh d) = inr () ∧
  registry_ok (state (deregisterImpl_ h n dk kh d), toks).
Proof.
  intros Hok.
  destruct (ok_tokens _ Hok (DeregisterImpl h n dk kh) h n) as (e & He & Hn);
    [left|done|]. simpl in He.
  destruct (ok_entries _ Hok h e He) as [Hdef Himpl Hcnt Hpos Hsch Hsn].
  cbn [fst snd] in *. rewrite def_names_impl in Hdef. rewrite impl_keys_impl in Himpl.
  destruct (erase_kernel_Some (dk, kh) (kernels_ (op e))) as (ks & Hks & Hp).
  { rewrite Himpl. left. }
  assert (kernel_key <$> ks ≡ₚ impl_keys h toks) as Himpl'.
  { apply (inj (cons (dk, kh))). by rewrite <-Hp. }
  assert (length (kernels_ (op e)) = S (length ks)) as Hlen.
  { apply Permutation_length in Hp. cbn [length] in Hp.
    by rewrite !length_fmap in Hp. }
  assert (deregisterKernel_ dk kh (op e) =
          Some {| name_ := name_ (op e); schema_ := schema_ (op e);
                  kernels_ := ks; next_kernel_ := next_kernel_ (op e) |}) as Hk.
  { unfold deregisterKernel_. by rewrite Hks. }
  rewrite (deregisterImpl_run h n dk kh d e _ He Hk Hn Hpos).
  cbn [def_and_impl_count with_op with_def_and_impl_count op].
  destruct (bool_decide (0 = pred (def_and_impl_count e))) eqn:Hz2.
  - apply bool_decide_eq_true in Hz2.
    assert (ks = []) as -> by (apply length_zero_iff_nil; lia).
    assert (schema_ (op e) = None) as Hs by (apply Hsch; lia).
    unfold prepareForDeregistration, hasSchema; simpl. rewrite Hs. simpl.
    split; [done|]. rewrite <-Hn.
    eapply (registry_ok_erased _ _ _ _ _ Hok He);
      [|by apply Permutation_nil_r; rewrite <-Himpl'
       |other_handles|other_handles|old_handle].
    apply length_zero_iff_nil. lia.
  - apply bool_decide_eq_false in Hz2. simpl. split; [done|].
    eapply (registry_ok_stored _ _ _ _ _ _ Hok He);
      [done| |other_handles|other_handles|old_handle].
    split; simpl; [lia|done|lia|lia|done|done].
Qed.

Lemma registerFallback_ok k kern d toks :
  registry_ok (d, toks) →
  registry_ok (keep_handle (registerFallback k kern d) toks).
Proof.
  intros Hok. unfold keep_handle. rewrite registerFallback_run.
  destruct (backendFallbackKernels_ d !! k); simpl; [done|].
  apply registry_ok_add.
  eapply registry_ok_frame; [..|exact Hok]; try (by destruct (isFallthrough kern)).
  intros t [->|?]%elem_of_cons; auto.
Qed.

Lemma deregisterFallback_ok k d toks :
  registry_ok (d, DeregisterFallback k :: toks) →
  registry_ok (state (deregisterFallback_ k d), toks).
Proof.
  intros Hok. rewrite deregisterFallback_run. simpl.
  eapply registry_ok_frame; [..|exact Hok]; try done.
  intros t ?. right. by right.
Qed.

Lemma addRegistrationListener_ok listener d toks :
  registry_ok (d, toks) →
  registry_ok (state (addRegistrationListener listener d), toks).
Proof.
  intros Hok. rewrite addRegistrationListener_run. simpl.
  eapply registry_ok_frame; [..|exact Hok]; try done. auto.
Qed.

Lemma release_ok t d toks :
  registry_ok (d, t :: toks) → registry_ok (state (release t d), toks).
Proof.
  destruct t; simpl; intros Hok.
  - by apply deregisterDef_ok.
  - by apply deregisterImpl_ok.
  - by apply deregisterFallback_ok.
Qed.

Lemma perform_ok c w : registry_ok w → registry_ok (perform c w).
Proof.
  destruct w as [d toks]. intros Hok. destruct c; simpl.
  - by apply registerDef_ok.
  - by apply registerImpl_ok.
  - by apply registerFallback_ok.
  - by apply addRegistrationListener_ok.
  - destruct (toks !! i) as [t|] eqn:Hi; [|done].
    apply release_ok. eapply registry_ok_perm; [|exact Hok].
    by apply delete_Permutation.
Qed.

Lemma new_Dispatcher_ok : registry_ok (new_Dispatcher, []).
Proof.
  split; simpl; try done.
  - apply NoDup_nil_2.
  - intros h []%elem_of_nil.
  - intros n h. rewrite lookup_empty. split; [done|]. by intros (? & ? & ?).
  - intros t h n []%elem_of_nil.
Qed.

Lemma reachable_ok w : reachable w → registry_ok w.
Proof.
  induction 1 as [|c w _ IH]; [apply new_Dispatcher_ok | by apply perform_ok].
Qed.

Lemma reachable_run calls w : reachable w → reachable (run calls w).
Proof.
  revert w. induction calls as [|c calls IH]; intros w Hw; [done|].
  simpl. apply IH. by constructor.
Qed.

(** ** What the operator registrations leave alone *)

Create HintDb frame discriminated.

Lemma keeps_fallbacks_ret {A} (a : A) : keeps_fallbacks (mret a).
Proof. by intros d. Qed.

Lemma keeps_fallbacks_throw {A} e : keeps_fallbacks (@throw A e).
Proof. by intros d. Qed.

Lemma keeps_fallbacks_get : keeps_fallbacks get.
Proof. by intros d. Qed.

Lemma keeps_fallbacks_emit evs : keeps_fallbacks (emit evs).
Proof. by intros d. Qed.

Lemma keeps_fallbacks_bind {A B} (m : M A) (f : A → M B) :
  keeps_fallbacks m → (∀ a, keeps_fallbacks (f a)) → keeps_fallbacks (m ≫= f).
Proof.
  intros Hm Hf d. specialize (Hm d).
  unfold mbind, M_bind, state in *.
  destruct (m d) as [[[e|a] d1] ev1]; simpl in *; [done|].
  destruct (Hf a d1) as [H1 H2]. unfold state in *. simpl in *.
  destruct Hm as [<- <-]. by rewrite H1, H2.
Qed.

Lemma keeps_fallbacks_lock_guard {A} (m : M A) :
  keeps_fallbacks m → keeps_fallbacks (lock_guard m).
Proof. intros Hm d. apply Hm. Qed.

Lemma keeps_fallbacks_deref h : keeps_fallbacks (deref h).
Proof. intros d. unfold deref. by destruct (lookup_node h (operators_ d)). Qed.

Lemma keeps_fallbacks_set_operators f : keeps_fallbacks (modify (set_operators f)).
Proof. by intros d. Qed.

Lemma keeps_fallbacks_set_lookup f : keeps_fallbacks (modify (set_lookup f)).
Proof. by intros d. Qed.

Lemma keeps_fallbacks_emplace_back n : keeps_fallbacks (modify (emplace_back n)).
Proof. by intros d. Qed.

Lemma keeps_fallbacks_push_listener l : keeps_fallbacks (modify (push_listener l)).
Proof. by intros d. Qed.

Lemma keeps_fallbacks_check c e : keeps_fallbacks (TORCH_CHECK c e).
Proof. intros d. by destruct c. Qed.

Lemma keeps_fallbacks_assert c : keeps_fallbacks (TORCH_INTERNAL_ASSERT c).
Proof. intros d. by destruct c. Qed.

Lemma keeps_fallbacks_if {A} (c : bool) (m1 m2 : M A) :
  keeps_fallbacks m1 → keeps_fallbacks m2 → keeps_fallbacks (if c then m1 else m2).
Proof. by destruct c. Qed.

Lemma keeps_fallbacks_for_each {A} (l : list A) body :
  (∀ x, keeps_fallbacks (body x)) → keeps_fallbacks (for_each l body).
Proof.
  intros Hb. induction l as [|x l IH]; simpl.
  - apply keeps_fallbacks_ret.
  - apply keeps_fallbacks_bind; auto.
Qed.

#[local] Hint Resolve keeps_fallbacks_ret keeps_fallbacks_throw keeps_fallbacks_get
  keeps_fallbacks_emit keeps_fallbacks_lock_guard keeps_fallbacks_deref
  keeps_fallbacks_set_operators keeps_fallbacks_set_lookup
  keeps_fallbacks_emplace_back keeps_fallbacks_push_listener
  keeps_fallbacks_check keeps_fallbacks_assert keeps_fallbacks_if
  keeps_fallbacks_for_each : frame.

Ltac frame :=
  repeat first
    [ progress (intros; cbv beta zeta)
    | match goal with
      | |- keeps_fallbacks (_ ≫= _) => apply keeps_fallbacks_bind
      | |- keeps_fallbacks (lock_guard _) => apply keeps_fallbacks_lock_guard
      end
    | match goal with
      | |- keeps_fallbacks (match ?x with _ => _ end) => destruct x
      end
    | solve [auto with frame] ].

Lemma keeps_fallbacks_assign h f : keeps_fallbacks (assign h f).
Proof. unfold assign. frame. Qed.

Lemma keeps_fallbacks_handle_schema h : keeps_fallbacks (handle_schema h).
Proof. unfold handle_schema. frame. Qed.

Lemma keeps_fallbacks_findOrRegisterName_ n : keeps_fallbacks (findOrRegisterName_ n).
Proof. unfold findOrRegisterName_. frame. Qed.

#[local] Hint Resolve keeps_fallbacks_assign keeps_fallbacks_handle_schema
  keeps_fallbacks_findOrRegisterName_ : frame.

Lemma keeps_fallbacks_cleanup h n : keeps_fallbacks (cleanup h n).
Proof. unfold cleanup. frame. Qed.

#[local] Hint Resolve keeps_fallbacks_cleanup : frame.

Lemma keeps_fallbacks_registerDef s : keeps_fallbacks (registerDef s).
Proof.
  unfold registerDef, checkSchemaCompatibility, callOnOperatorRegistered. frame.
Qed.

Lemma keeps_fallbacks_deregisterDef_ h n : keeps_fallbacks (deregisterDef_ h n).
Proof. unfold deregisterDef_, callOnOperatorDeregistered. frame. Qed.

Lemma keeps_fallbacks_registerImpl n dk k inferred dbg :
  keeps_fallbacks (registerImpl n dk k inferred dbg).
Proof. unfold registerImpl. frame. Qed.

Lemma keeps_fallbacks_deregisterImpl_ h n dk kh :
  keeps_fallbacks (deregisterImpl_ h n dk kh).
Proof. unfold deregisterImpl_. frame. Qed.

Lemma keeps_fallbacks_addRegistrationListener l :
  keeps_fallbacks (addRegistrationListener l).
Proof.
  unfold addRegistrationListener, onOperatorRegistered, addListener. frame.
Qed.

(** ** Code that calls no listener *)

Lemma silent_ret {A} (a : A) : silent (mret a).
Proof. intros d. apply Forall_nil_2. Qed.

Lemma silent_throw {A} e : silent (@throw A e).
Proof. intros d. apply Forall_nil_2. Qed.

Lemma silent_get : silent get.
Proof. intros d. apply Forall_nil_2. Qed.

Lemma silent_modify f : silent (modify f).
Proof. intros d. apply Forall_nil_2. Qed.

Lemma silent_bind {A B} (m : M A) (f : A → M B) :
  silent m → (∀ a, silent (f a)) → silent (m ≫= f).
Proof.
  intros Hm Hf d. specialize (Hm d).
  unfold mbind, M_bind, events in *.
  destruct (m d) as [[[e|a] d1] ev1]; simpl in *; [done|].
  apply Forall_app. split; [done|]. apply Hf.
Qed.

Lemma silent_lock_guard {A} (m : M A) : silent m → silent (lock_guard m).
Proof.
  intros Hm d. unfold lock_guard, events at 1. simpl.
  apply Forall_cons. split; [done|].
  apply Forall_app. split; [apply Hm|]. by apply Forall_singleton.
Qed.

Lemma silent_deref h : silent (deref h).
Proof.
  intros d. unfold deref.
  destruct (lookup_node h (operators_ d)); apply Forall_nil_2.
Qed.

Lemma silent_assert c : silent (TORCH_INTERNAL_ASSERT c).
Proof. intros d. destruct c; apply Forall_nil_2. Qed.

Lemma silent_if {A} (c : bool) (m1 m2 : M A) :
  silent m1 → silent m2 → silent (if c then m1 else m2).
Proof. by destruct c. Qed.

#[local] Hint Resolve silent_ret silent_throw silent_get silent_modify
  silent_lock_guard silent_deref silent_assert silent_if : frame.

Ltac silence :=
  repeat first
    [ progress (intros; cbv beta zeta)
    | match goal with
      | |- silent (_ ≫= _) => apply silent_bind
      | |- silent (lock_guard _) => apply silent_lock_guard
      end
    | match goal with
      | |- silent (match ?x with _ => _ end) => destruct x
      end
    | solve [auto with frame] ].

Lemma silent_assign h f : silent (assign h f).
Proof. unfold assign. silence. Qed.

Lemma silent_findOrRegisterName_ n : silent (findOrRegisterName_ n).
Proof. unfold findOrRegisterName_. silence. Qed.

#[local] Hint Resolve silent_assign silent_findOrRegisterName_ : frame.

Lemma silent_cleanup h n : silent (cleanup h n).
Proof. unfold cleanup. silence. Qed.

#[local] Hint Resolve silent_cleanup : frame.

Lemma silent_registerImpl n dk k inferred dbg :
  silent (registerImpl n dk k inferred dbg).
Proof. unfold registerImpl. silence. Qed.

Lemma silent_deregisterImpl_ h n dk kh : silent (deregisterImpl_ h n dk kh).
Proof. unfold deregisterImpl_. silence. Qed.

(** * The claims *)

(** C1 (amended).  For an operator that has a live definition, a second
    [registerDef] with a structurally equal schema is accepted when the new
    schema leaves the alias-analysis kind unspecified; when the new schema
    specifies a kind and the existing one does not, it is accepted exactly
    when the new kind is the kind that [aliasAnalysis()] reports for an
    unspecified schema; when both specify a kind, exactly when the kinds are
    equal.  An accepted registration only increments the two counts: the
    node of the operator keeps its entry, with the name, the stored schema
    and the kernels, and gets both counts incremented by one; every other
    node, the order of the list, the lookup index, the fallbacks and the
    listeners are as before, and no listener is called.  A rejected one
    throws the alias-analysis error and leaves the registry unchanged. *)
Theorem registerDef_alias_analysis_rule d s s0 h e :
  findOperatorByName (operator_name s) d = Some h →
  lookup_node h (operators_ d) = Some e →
  0 < def_count e →
  schema_ (op e) = Some s0 →
  schema_eqb s0 s = true →
  let o := registerDef s d in
  let accepted := result o = inr (DeregisterDef h (operator_name s)) in
  match alias_kind_ s, alias_kind_ s0 with
  | None, _ => accepted
  | Some k, None => accepted ↔ k = default_alias_kind
  | Some k, Some k0 => accepted ↔ k = k0
  end
  ∧ (accepted →
     (∃ e', lookup_node h (operators_ (state o)) = Some e' ∧
            schema_ (op e') = Some s0 ∧
            def_count e' = S (def_count e) ∧
            def_and_impl_count e' = S (def_and_impl_count e))
     ∧ lookup_node h (operators_ (state o)) =
         Some {| op := op e; def_count := S (def_count e);
                 def_and_impl_count := S (def_and_impl_count e) |}
     ∧ (∀ h', h' ≠ h →
          lookup_node h' (operators_ (state o)) = lookup_node h' (operators_ d))
     ∧ (operators_ (state o)).*1 = (operators_ d).*1
     ∧ next_node_ (state o) = next_node_ d
     ∧ operatorLookupTable_ (state o) = operatorLookupTable_ d
     ∧ backendFallbackKernels_ (state o) = backendFallbackKernels_ d
     ∧ backendsWithoutFallthrough_ (state o) = backendsWithoutFallthrough_ d
     ∧ listeners_ (state o) = listeners_ d
     ∧ events o = [Lock; Unlock])
  ∧ (¬ accepted → result o = inl AliasAnalysisConflict ∧ state o = d).
Proof.
  intros Hf Hl Hd Hs Heq o accepted. subst o accepted.
  rewrite (registerDef_defined s d h e s0 Hf Hl) by (done || lia).
  unfold schema_check, isDefaultAliasAnalysisKind, aliasAnalysis. rewrite Heq.
  assert (∀ e2, lookup_node h (operators_ (stored h e2 d)) = Some e2) as Hst.
  { intros e2. by erewrite lookup_stored, decide_True. }
  assert (∀ h' e2, h' ≠ h →
            lookup_node h' (operators_ (stored h e2 d)) = lookup_node h' (operators_ d))
    as Hother.
  { intros h' e2 Hne. erewrite lookup_stored by done. by rewrite decide_False. }
  assert (∀ e2, (operators_ (stored h e2 d)).*1 = (operators_ d).*1) as Hkeys.
  { intros e2. apply fst_update_node. }
  assert (schema_ (op (with_def_and_impl_count S (with_def_count S e))) = Some s0)
    as Hkept by done.
  destruct (alias_kind_ s) as [k|], (alias_kind_ s0) as [k0|];
    cbn [result state events fst snd default from_option id].
  - destruct (bool_decide (k0 = k)) eqn:Hk.
    + apply bool_decide_eq_true in Hk as ->. cbn [result state events fst snd].
      split_and!; [done| |done]. intros _. rewrite Hst.
      split_and!; eauto.
    + apply bool_decide_eq_false in Hk. cbn [result state events fst snd].
      split_and!; [split; [done|congruence]|done|done].
  - destruct (bool_decide (default_alias_kind = k)) eqn:Hk.
    + apply bool_decide_eq_true in Hk as <-. cbn [result state events fst snd].
      split_and!; [done| |done]. intros _. rewrite Hst.
      split_and!; eauto.
    + apply bool_decide_eq_false in Hk. cbn [result state events fst snd].
      split_and!; [split; [done|congruence]|done|done].
  - split_and!; [done| |done]. intros _. rewrite Hst. split_and!; eauto.
  - split_and!; [done| |done]. intros _. rewrite Hst. split_and!; eauto.
Qed.

(** C2.  A registration that throws leaves the registry as it was: in a
    reachable registry [registerDef] throws only the schema conflict and the
    alias-analysis conflict, [registerFallback] only the duplicate fallback,
    and the registry after the throw is the registry before the call. *)
Theorem rejected_registration_leaves_registry w s k kern :
  reachable w →
  (∀ f, result (registerDef s w.1) = inl f →
        (f = SchemaConflict ∨ f = AliasAnalysisConflict) ∧
        state (registerDef s w.1) = w.1)
  ∧ (∀ f, result (registerFallback k kern w.1) = inl f →
          f = DuplicateFallback ∧ state (registerFallback k kern w.1) = w.1).
Proof.
  intros Hok%reachable_ok. destruct w as [d toks]. simpl. split.
  - destruct (findOperatorByName (operator_name s) d) as [h|] eqn:Hf.
    + destruct (registry_ok_found _ _ _ _ Hok Hf) as (e & He & Hn & [? ? ? ? Hsch Hsn]).
      destruct (decide (def_count e = 0)) as [Hz|Hnz].
      * by rewrite (registerDef_undefined _ _ _ _ Hf He Hz).
      * destruct (schema_ (op e)) as [s0|] eqn:Hs; [|by destruct Hnz; apply Hsch].
        rewrite (registerDef_defined _ _ _ _ _ Hf He Hnz Hs).
        unfold schema_check.
        destruct (schema_eqb s0 s); [|intros f [= <-]; auto].
        destruct (isDefaultAliasAnalysisKind s); [done|].
        destruct (bool_decide _); [done|]. intros f [= <-]; auto.
    + by rewrite (registerDef_fresh _ _ Hf (registry_ok_fresh _ _ Hok)).
  - rewrite registerFallback_run.
    destruct (backendFallbackKernels_ d !! k); [|done].
    by intros f [= <-].
Qed.

(** What releasing a handle of an operator does to the node of the
    operator in a registry that satisfies the invariant. *)
Lemma release_state d toks t h n e :
  registry_ok (d, t :: toks) →
  token_op t = Some (h, n) →
  lookup_node h (operators_ d) = Some e →
  result (release t d) = inr () ∧
  (def_and_impl_count e = 1 ∧ state (release t d) = erased h n d
   ∨ def_and_impl_count e ≠ 1 ∧
     ∃ e', state (release t d) = stored h e' d ∧
           def_and_impl_count e' = pred (def_and_impl_count e)).
Proof.
  intros Hok Ht He.
  destruct (ok_entries _ Hok h e He) as [Hdef Himpl Hcnt Hpos Hsch Hsn].
  destruct (ok_tokens _ Hok t h n) as (e0 & He0 & Hn); [left|done|].
  cbn [fst snd] in *. rewrite He in He0. injection He0 as <-.
  destruct t as [h' n'|h' n' dk kh|]; cbn [token_op release] in *; simplify_eq.
  - destruct (deregisterDef_ok _ _ _ _ Hok) as [Hres _]. split; [done|].
    rewrite def_names_def in Hdef. simpl in Hdef.
    destruct (schema_ (op e)) as [s|] eqn:Hs;
      [|destruct Hsch as [Hsch _]; specialize (Hsch eq_refl); lia].
    revert Hres.
    rewrite (deregisterDef_run h _ d e s He Hs) by (by apply Hsn || lia).
    assert (def_and_impl_count (def_released e) = pred (def_and_impl_count e)) as Hp.
    { unfold def_released. by destruct (bool_decide _). }
    rewrite Hp.
    destruct (bool_decide (0 = pred (def_and_impl_count e))) eqn:Hz.
    + apply bool_decide_eq_true in Hz.
      destruct (prepareForDeregistration _); [|done]. intros _.
      left. split; [lia|done].
    + apply bool_decide_eq_false in Hz. intros _.
      right. split; [lia|]. eauto.
  - destruct (deregisterImpl_ok _ _ _ _ _ _ Hok) as [Hres _]. split; [done|].
    rewrite impl_keys_impl in Himpl.
    destruct (erase_kernel_Some (dk, kh) (kernels_ (op e))) as (ks & Hks & _).
    { rewrite Himpl. left. }
    assert (deregisterKernel_ dk kh (op e) =
            Some {| name_ := name_ (op e); schema_ := schema_ (op e);
                    kernels_ := ks; next_kernel_ := next_kernel_ (op e) |}) as Hk.
    { unfold deregisterKernel_. by rewrite Hks. }
    revert Hres.
    rewrite (deregisterImpl_run h _ dk kh d e _ He Hk eq_refl Hpos).
    cbn [def_and_impl_count with_def_and_impl_count with_op].
    destruct (bool_decide (0 = pred (def_and_impl_count e))) eqn:Hz.
    + apply bool_decide_eq_true in Hz.
      destruct (prepareForDeregistration _); [|done]. intros _.
      left. split; [lia|done].
    + apply bool_decide_eq_false in Hz. intros _.
      right. split; [lia|]. eauto.
Qed.

Lemma token_of_entry toks h e :
  entry_ok toks h e → ∃ t n, t ∈ toks ∧ token_op t = Some (h, n).
Proof.
  intros [Hdef Himpl Hcnt Hpos _ _].
  destruct (def_names h toks) as [|n l] eqn:Hd.
  - destruct (impl_keys h toks) as [|key l] eqn:Hi.
    + apply Permutation_nil_r, fmap_nil_inv in Himpl.
      rewrite Himpl in Hcnt. simpl in *. lia.
    + assert (key ∈ impl_keys h toks) as Hin by (rewrite Hi; left).
      apply list_elem_of_omap in Hin as (t & Ht & Hk).
      destruct t as [|h' n' dk kh|]; try done. case_decide; simplify_eq.
      eauto.
  - assert (n ∈ def_names h toks) as Hin by (rewrite Hd; left).
    apply list_elem_of_omap in Hin as (t & Ht & Hk).
    destruct t as [h' n'| |]; try done. case_decide; simplify_eq.
    eauto.
Qed.

(** C3.  In a reachable registry an operator name is in the lookup index
    exactly when a registration handle for that name is alive, and the
    index and the operator list hold the same operators.  Releasing a
    handle of the operator erases its node from the list and its name from
    the index exactly when that was the last registration, that is when
    [def_and_impl_count] was one and reaches zero; otherwise the node stays
    with the count decremented and the name is still found. *)
Theorem operator_erased_with_last_handle w n :
  reachable w →
  ((∃ t h, t ∈ w.2 ∧ token_op t = Some (h, n)) ↔
   is_Some (findOperatorByName n w.1))
  ∧ (∀ h, findOperatorByName n w.1 = Some h ↔
          ∃ e, lookup_node h (operators_ w.1) = Some e ∧ name_ (op e) = n)
  ∧ (∀ i t h e,
       w.2 !! i = Some t → token_op t = Some (h, n) →
       lookup_node h (operators_ w.1) = Some e →
       let w' := perform (Release i) w in
       if decide (def_and_impl_count e = 1) then
         findOperatorByName n w'.1 = None ∧ h ∉ (operators_ w'.1).*1
       else
         findOperatorByName n w'.1 = Some h ∧
         ∃ e', lookup_node h (operators_ w'.1) = Some e' ∧
               def_and_impl_count e' = pred (def_and_impl_count e)).
Proof.
  intros Hok%reachable_ok. destruct w as [d toks]. cbn [fst snd].
  split_and!.
  - split.
    + intros (t & h & Ht & Hop).
      destruct (ok_tokens _ Hok t h n Ht Hop) as (e & He & Hn).
      exists h. apply (ok_table _ Hok). eauto.
    + intros [h Hf].
      destruct (registry_ok_found _ _ _ _ Hok Hf) as (e & He & Hn & Hent).
      destruct (token_of_entry _ _ _ Hent) as (t & n' & Ht & Hop).
      destruct (ok_tokens _ Hok t h n' Ht Hop) as (e' & He' & Hn').
      cbn [fst snd] in *. exists t, h. split; [done|]. congruence.
  - intros h. apply (ok_table _ Hok).
  - intros i t h e Hi Hop He. cbn [perform snd fst]. rewrite Hi.
    assert (registry_ok (d, t :: delete i toks)) as Hok'.
    { eapply registry_ok_perm; [|exact Hok]. by apply delete_Permutation. }
    destruct (ok_tokens _ Hok' t h n) as (e0 & He0 & Hn); [left|done|].
    cbn [fst snd] in *. rewrite He in He0. injection He0 as <-.
    destruct (release_state _ _ _ _ _ _ Hok' Hop He) as [_ [[H1 ->]|[H1 (e' & -> & Hp)]]].
    + rewrite decide_True by done. split.
      * unfold findOperatorByName, erased. simpl. apply lookup_delete_eq.
      * apply lookup_node_None. unfold erased. simpl.
        rewrite lookup_erase_node by apply (ok_nodup _ Hok).
        by rewrite decide_True.
    + rewrite decide_False by done. split.
      * unfold findOperatorByName, stored. simpl.
        apply (ok_table _ Hok). eauto.
      * exists e'. split; [|done]. by erewrite lookup_stored, decide_True.
Qed.

(** C4.  [findSchema] yields a handle exactly when the name is in the index
    and its operator has a schema attached.  When it yields nothing for a
    name (no definition is registered under it), [registerImpl] for that
    name succeeds, after which [findOperatorByName] yields the handle of the
    operator and [findSchema] still yields nothing. *)
Theorem findSchema_needs_definition w n dk k inferred dbg :
  reachable w →
  (∀ h, findSchema n w.1 = inr (Some h) ↔
        findOperatorByName n w.1 = Some h ∧
        ∃ e, lookup_node h (operators_ w.1) = Some e ∧ is_Some (schema_ (op e)))
  ∧ (findSchema n w.1 = inr None →
     let o := registerImpl n dk k inferred dbg w.1 in
     ∃ h kh, result o = inr (DeregisterImpl h n dk kh) ∧
             findOperatorByName n (state o) = Some h ∧
             findSchema n (state o) = inr None).
Proof.
  intros Hok%reachable_ok. destruct w as [d toks]. cbn [fst snd].
  split.
  - intros h. unfold findSchema, hasSchema.
    destruct (findOperatorByName n d) as [h'|] eqn:Hf; [|by split; [|intros [? _]]].
    destruct (lookup_node h' (operators_ d)) as [e|] eqn:He.
    + destruct (schema_ (op e)) eqn:Hs.
      * split; [intros [= <-]; eauto|]. by intros [[= <-] _].
      * split; [done|]. intros [[= <-] (e' & He' & Hs')].
        rewrite He in He'. injection He' as <-. rewrite Hs in Hs'.
        by destruct Hs'.
    + split; [done|]. intros [[= <-] (e' & He' & _)]. congruence.
  - intros Hnone.
    destruct (findOperatorByName n d) as [h|] eqn:Hf.
    + destruct (registry_ok_found _ _ _ _ Hok Hf) as (e & He & Hn & _).
      rewrite (registerImpl_found _ _ _ _ _ _ _ _ Hf He).
      cbn [result state fst snd]. eexists _, _. split; [done|].
      unfold findSchema in *. rewrite Hf, He in Hnone.
      match goal with
      | |- context [stored h ?e1 d] =>
          assert (findOperatorByName n (stored h e1 d) = Some h) as -> by exact Hf;
          rewrite (lookup_stored h h e1 e d He), decide_True by done
      end.
      split; [done|]. unfold hasSchema in *. simpl.
      by destruct (schema_ (op e)).
    + rewrite (registerImpl_fresh _ _ _ _ _ _ Hf (registry_ok_fresh _ _ Hok)).
      cbn [result state fst snd]. eexists _, _. split; [done|].
      unfold findSchema, findOperatorByName, created; simpl.
      rewrite lookup_insert_eq. split; [done|].
      rewrite lookup_node_app, (registry_ok_fresh _ _ Hok).
      by rewrite decide_True.
Qed.

(** C5.  In every reachable registry every operator definition has
    [def_count <= def_and_impl_count], and so it has after any further call:
    a definition, a kernel or a fallback registration, adding a listener, or
    the release of a handle that is alive. *)
Theorem def_count_le_def_and_impl_count w c :
  reachable w →
  (∀ h e, (h, e) ∈ operators_ w.1 → def_count e ≤ def_and_impl_count e)
  ∧ (∀ h e, (h, e) ∈ operators_ (perform c w).1 →
            def_count e ≤ def_and_impl_count e).
Proof.
  intros Hw.
  assert (∀ w', registry_ok w' → ∀ h e, (h, e) ∈ operators_ w'.1 →
            def_count e ≤ def_and_impl_count e) as Hle.
  { intros w' Hok h e Hin.
    apply (lookup_node_elem _ _ _ (ok_nodup _ Hok)) in Hin.
    destruct (ok_entries _ Hok h e Hin). lia. }
  split; apply Hle.
  - by apply reachable_ok.
  - by apply perform_ok, reachable_ok.
Qed.

Lemma callbacks_locked (cbs : list Event) :
  Forall (λ ev, is_callback ev = true) cbs →
  callbacks (Lock :: cbs ++ [Unlock]) = cbs.
Proof.
  intros Hcb. unfold callbacks.
  rewrite filter_cons_False by done. rewrite filter_app.
  rewrite (filter_cons_False _ Unlock) by done. rewrite filter_nil, app_nil_r.
  induction Hcb as [|ev cbs Hev _ IH]; [done|].
  by rewrite filter_cons_True, IH.
Qed.

(** C6.  When the release of a definition handle brings [def_count] from
    one to zero, every listener of the registry is called, in the order of
    the listener list, with the handle of the operator, and each of them
    observes a registry in which the counts are already decremented while
    the name is still in the index and the schema is still attached
    ([findSchema] yields the handle).  After the call the schema is gone:
    [findSchema] yields nothing for the name. *)
Theorem listeners_called_before_schema_removed w i h n e :
  reachable w →
  w.2 !! i = Some (DeregisterDef h n) →
  lookup_node h (operators_ w.1) = Some e →
  def_count e = 1 →
  let o := deregisterDef_ h n w.1 in
  ∃ seen,
    result o = inr ()
    ∧ callbacks (events o) =
      (λ l, OnOperatorDeregistered l h seen) <$> listeners_ w.1
    ∧ findOperatorByName n seen = Some h
    ∧ findSchema n seen = inr (Some h)
    ∧ (∃ e1, lookup_node h (operators_ seen) = Some e1 ∧
             def_count e1 = 0 ∧ schema_ (op e1) = schema_ (op e))
    ∧ findSchema n (state o) = inr None.
Proof.
  intros Hok%reachable_ok. destruct w as [d toks]. cbn [fst snd].
  intros Hi He Hone.
  assert (registry_ok (d, DeregisterDef h n :: delete i toks)) as Hok'.
  { eapply registry_ok_perm; [|exact Hok]. by apply delete_Permutation. }
  destruct (deregisterDef_ok _ _ _ _ Hok') as [Hres _].
  destruct (ok_tokens _ Hok' (DeregisterDef h n) h n) as (e0 & He0 & Hn);
    [left|done|].
  cbn [fst snd] in *. rewrite He in He0. injection He0 as <-.
  destruct (ok_entries _ Hok h e He) as [Hdef Himpl Hcnt Hpos Hsch Hsn].
  destruct (schema_ (op e)) as [s|] eqn:Hs;
    [|destruct Hsch as [Hsch _]; specialize (Hsch eq_refl); lia].
  assert (findOperatorByName n d = Some h) as Hf.
  { apply (ok_table _ Hok). eauto. }
  set (e1 := with_def_and_impl_count pred (with_def_count pred e)).
  exists (stored h e1 d).
  assert (def_count e1 = 0) as Hz by (simpl; lia).
  assert (lookup_node h (operators_ (stored h e1 d)) = Some e1) as He1.
  { by erewrite lookup_stored, decide_True. }
  assert (∃ r dd,
    deregisterDef_ h n d =
    (r, dd, Lock :: ((λ l, OnOperatorDeregistered l h (stored h e1 d))
                       <$> listeners_ d) ++ [Unlock]) ∧
    (dd = erased h n d ∨ dd = stored h (def_released e) d)) as (r & dd & Hrun & Hdd).
  { rewrite (deregisterDef_run h n d e s He Hs) by (by rewrite ?Hsn || lia).
    fold e1. rewrite (bool_decide_true (0 = def_count e1)) by done.
    destruct (bool_decide _); [destruct (prepareForDeregistration _)|]; eauto. }
  rewrite Hrun in Hres |- *. cbn [result state events fst snd] in *.
  split_and!.
  - done.
  - apply callbacks_locked, Forall_fmap, Forall_forall. done.
  - exact Hf.
  - unfold findSchema.
    replace (findOperatorByName n (stored h e1 d)) with (Some h) by done.
    rewrite He1. unfold hasSchema. simpl. by rewrite Hs.
  - exists e1. split_and!; [done|done|]. simpl. by rewrite Hs.
  - destruct Hdd as [-> | ->]; unfold findSchema.
    + replace (findOperatorByName n (erased h n d)) with (@None OperatorHandle);
        [done|].
      unfold findOperatorByName, erased. simpl. by rewrite lookup_delete_eq.
    + replace (findOperatorByName n (stored h (def_released e) d)) with (Some h) by done.
      erewrite lookup_stored, decide_True by done.
      unfold def_released. fold e1.
      by rewrite (bool_decide_true (0 = def_count e1)) by done.
Qed.

Lemma announced_replay listener d (l : list (OperatorHandle * OperatorDef)) :
  announced (Lock :: ((λ iter, OnOperatorRegistered listener iter.1 d) <$> l)
                  ++ [Unlock]) = l.*1.
Proof.
  unfold announced. cbn [omap list_omap]. rewrite omap_app. simpl.
  rewrite app_nil_r. induction l as [|x l IH]; [done|].
  rewrite !fmap_cons. cbn [omap list_omap]. by rewrite IH.
Qed.

(** C7.  [addRegistrationListener] calls [onOperatorRegistered] of the new
    listener for the operators with [def_count > 0], in the order of the
    operator list and once each: the operators with [def_count = 0] are
    passed over.  The registry the listener observes in these calls is the
    registry before the call, in which it is not yet in the listener list,
    and they are made under the lock; the call then appends the listener at
    the end of the listener list and changes nothing else. *)
Theorem addRegistrationListener_replays_definitions w listener :
  reachable w →
  let o := addRegistrationListener listener w.1 in
  result o = inr ()
  ∧ callbacks (events o) =
    (λ iter, OnOperatorRegistered listener iter.1 w.1)
      <$> filter (λ iter, 0 < def_count iter.2) (operators_ w.1)
  ∧ NoDup (announced (events o))
  ∧ (∀ h, h ∈ announced (events o) ↔
          ∃ e, lookup_node h (operators_ w.1) = Some e ∧ 0 < def_count e)
  ∧ state o = push_listener listener w.1
  ∧ listeners_ (state o) = listeners_ w.1 ++ [listener]
  ∧ operators_ (state o) = operators_ w.1
  ∧ next_node_ (state o) = next_node_ w.1
  ∧ operatorLookupTable_ (state o) = operatorLookupTable_ w.1
  ∧ backendFallbackKernels_ (state o) = backendFallbackKernels_ w.1
  ∧ backendsWithoutFallthrough_ (state o) = backendsWithoutFallthrough_ w.1
  ∧ events o =
      Lock :: ((λ iter, OnOperatorRegistered listener iter.1 w.1)
                 <$> filter (λ iter, 0 < def_count iter.2) (operators_ w.1))
           ++ [Unlock].
Proof.
  intros Hok%reachable_ok. destruct w as [d toks]. cbn [fst snd].
  rewrite addRegistrationListener_run. cbn [result state events fst snd].
  rewrite announced_replay.
  split_and!; try done.
  - apply callbacks_locked, Forall_fmap, Forall_forall. done.
  - eapply sublist_NoDup; [apply (ok_nodup _ Hok)|].
    apply fmap_sublist, sublist_filter.
  - intros h. rewrite list_elem_of_fmap. split.
    + intros ([h' e] & -> & [Hpos Hin]%list_elem_of_filter).
      exists e. split; [|done].
      by apply lookup_node_elem; [apply (ok_nodup _ Hok)|].
    + intros (e & He%lookup_node_Some_elem & Hpos).
      exists (h, e). split; [done|]. by apply list_elem_of_filter.
Qed.

(** ** Backend fallbacks *)

Lemma has_add s k k' : has (add s k) k' = false ↔ k' ≠ k ∧ has s k' = false.
Proof.
  unfold has, add. rewrite !bool_decide_eq_false. set_solver.
Qed.

Lemma has_remove s k k' : has (remove s k) k' = false ↔ k' = k ∨ has s k' = false.
Proof.
  unfold has, remove. rewrite !bool_decide_eq_false.
  destruct (decide (k' = k)); set_solver.
Qed.

Lemma fallthrough_ok_frame d d' :
  backendFallbackKernels_ d' = backendFallbackKernels_ d ∧
  backendsWithoutFallthrough_ d' = backendsWithoutFallthrough_ d →
  fallthrough_ok d → fallthrough_ok d'.
Proof. intros [Ht Hs] Hok k. rewrite Ht, Hs. apply Hok. Qed.

Lemma registerFallback_fallthrough_ok k kern d :
  fallthrough_ok d → fallthrough_ok (state (registerFallback k kern d)).
Proof.
  intros Hok. rewrite registerFallback_run.
  destruct (backendFallbackKernels_ d !! k) as [old|] eqn:Hk; [done|].
  cbn [state fst snd]. destruct (isFallthrough kern) eqn:Hf.
  - intros k' Htag [->|Hhas]%has_remove; simpl.
    + rewrite lookup_insert_eq. eauto.
    + destruct (Hok k' Htag Hhas) as (kern' & Hk' & Hf').
      rewrite lookup_insert_ne by congruence. eauto.
  - intros k' Htag Hhas; simpl in *.
    destruct (Hok k' Htag Hhas) as (kern' & Hk' & Hf').
    rewrite lookup_insert_ne by congruence. eauto.
Qed.

Lemma deregisterFallback_fallthrough_ok k d :
  fallthrough_ok d → fallthrough_ok (state (deregisterFallback_ k d)).
Proof.
  intros Hok. rewrite deregisterFallback_run. cbn [state fst snd].
  intros k' Htag [Hne Hhas]%has_add; simpl.
  rewrite lookup_delete_ne by done. by apply Hok.
Qed.

Lemma perform_fallthrough_ok c w :
  fallthrough_ok w.1 → fallthrough_ok (perform c w).1.
Proof.
  destruct w as [d toks]. cbn [fst snd]. intros Hok.
  destruct c; cbn [perform fst snd]; unfold keep_handle.
  - pose proof (keeps_fallbacks_registerDef schema d) as Hk.
    destruct (result _); by apply (fallthrough_ok_frame d).
  - pose proof (keeps_fallbacks_registerImpl op_name dispatch_key kernel0
                  inferred_function_schema0 debug0 d) as Hk.
    destruct (result _); by apply (fallthrough_ok_frame d).
  - pose proof (registerFallback_fallthrough_ok dispatchKey kernel0 d Hok).
    by destruct (result _).
  - eapply fallthrough_ok_frame; [|exact Hok].
    apply (keeps_fallbacks_addRegistrationListener listener d).
  - destruct (toks !! i) as [[h n|h n dk kh|k]|]; cbn [fst release]; [..|done].
    + eapply fallthrough_ok_frame; [|exact Hok].
      apply (keeps_fallbacks_deregisterDef_ h n d).
    + eapply fallthrough_ok_frame; [|exact Hok].
      apply (keeps_fallbacks_deregisterImpl_ h n dk kh d).
    + by apply deregisterFallback_fallthrough_ok.
Qed.

Lemma reachable_fallthrough_ok w : reachable w → fallthrough_ok w.1.
Proof.
  induction 1 as [|c w _ IH]; [|by apply perform_fallthrough_ok].
  intros k [Hlo Hhi]. unfold Undefined in Hlo.
  unfold has, new_Dispatcher, FULL. simpl.
  rewrite bool_decide_eq_false. intros []. apply elem_of_list_to_set, elem_of_seq. lia.
Qed.

Lemma for_each_assert {A} (l : list A) (body : A → M unit) (holds : A → bool) d :
  (∀ x, body x d = (if holds x then inr () else inl InternalAssert, d, [])) →
  result (for_each l body d) = inr () ↔ Forall (λ x, holds x = true) l.
Proof.
  intros Hbody. induction l as [|x l IH]; cbn [for_each].
  - split; [intros _; apply Forall_nil_2 | done].
  - rewrite Forall_cons. unfold mbind, M_bind. rewrite Hbody.
    destruct (holds x); cbn [result fst]; [|by split; [|intros []]].
    rewrite IH. tauto.
Qed.

Lemma for_each_assert_state {A} (l : list A) (body : A → M unit) (holds : A → bool) d :
  (∀ x, body x d = (if holds x then inr () else inl InternalAssert, d, [])) →
  state (for_each l body d) = d.
Proof.
  intros Hbody. induction l as [|x l IH]; cbn [for_each]; [done|].
  unfold mbind, M_bind. rewrite Hbody. by destruct (holds x).
Qed.

Lemma checkInvariants_spec d :
  result (checkInvariants d) = inr () ↔
  (∀ h e, (h, e) ∈ operators_ d → entry_checkInvariants (op e) = true)
  ∧ fallthrough_ok d.
Proof.
  unfold checkInvariants.
  set (check_fallback := λ k : DispatchKey,
         has (backendsWithoutFallthrough_ d) k
         || isFallthrough (table_at (backendFallbackKernels_ d) k)).
  assert (∀ x : OperatorHandle * OperatorDef,
    TORCH_INTERNAL_ASSERT (entry_checkInvariants (op x.2)) d =
    (if entry_checkInvariants (op x.2) then inr () else inl InternalAssert, d, []))
    as Hentries by (intros x; by destruct (entry_checkInvariants _)).
  assert (∀ k,
    (if negb (has (backendsWithoutFallthrough_ d) k)
     then TORCH_INTERNAL_ASSERT
            (isFallthrough (table_at (backendFallbackKernels_ d) k))
     else mret ()) d =
    (if check_fallback k then inr () else inl InternalAssert, d, []))
    as Hfallbacks.
  { intros k. unfold check_fallback.
    destruct (has _ k); [done|]. by destruct (isFallthrough _). }
  pose proof (for_each_assert (operators_ d)
    (λ iter, TORCH_INTERNAL_ASSERT (entry_checkInvariants (op iter.2)))
    (λ iter, entry_checkInvariants (op iter.2)) d Hentries) as H1.
  pose proof (for_each_assert_state (operators_ d)
    (λ iter, TORCH_INTERNAL_ASSERT (entry_checkInvariants (op iter.2)))
    (λ iter, entry_checkInvariants (op iter.2)) d Hentries) as H1s.
  pose proof (for_each_assert (seq 1 (NumDispatchKeys - 1))
    (λ k, if negb (has (backendsWithoutFallthrough_ d) k)
          then TORCH_INTERNAL_ASSERT
                 (isFallthrough (table_at (backendFallbackKernels_ d) k))
          else mret ())
    check_fallback d Hfallbacks) as H2.
  unfold mbind, M_bind, get. cbn [fst snd].
  revert H1 H1s.
  destruct (for_each (operators_ d) _ d) as [[[err|[]] d1] ev1];
    cbn [result state fst snd]; intros H1 ->.
  - split; [done|]. intros [Hall _]. apply H1, Forall_forall.
    intros [h e]. apply Hall.
  - rewrite H2. rewrite !Forall_forall.
    split.
    + intros Hfb. split.
      * destruct H1 as [H1 _]. specialize (H1 eq_refl).
        rewrite Forall_forall in H1. intros h e. apply (H1 (h, e)).
      * intros k [Hlo Hhi] Hhas. unfold Undefined in Hlo.
        assert (check_fallback k = true) as Hc by (apply Hfb, elem_of_seq; lia).
        unfold check_fallback, table_at in Hc. rewrite Hhas in Hc. simpl in Hc.
        destruct (backendFallbackKernels_ d !! k) as [kern|]; [eauto|done].
    + intros [_ Hfb] k [Hlo Hhi]%elem_of_seq. unfold check_fallback, table_at.
      destruct (has _ k) eqn:Hhas; [done|].
      destruct (Hfb k) as (kern & -> & Hf); [split; unfold Undefined; lia|done|done].
Qed.

(** C8.  In every reachable registry every backend tag that is not in
    [backendsWithoutFallthrough_] has a fallback kernel that is a
    pass-through.  [checkInvariants] verifies exactly this: in every
    registry, reachable or not, it passes exactly when every operator entry
    passes its own check and every backend tag (the dispatch keys other than
    [Undefined]) that is not in the set has a pass-through fallback kernel;
    it throws as soon as one tag has none or one that is not a
    pass-through.  A pass-through fallback that is
    registered for a tag takes the tag out of the set, and releasing its
    handle puts the tag back. *)
Theorem fallthrough_backends_tracked w k kern :
  reachable w →
  fallthrough_ok w.1
  ∧ ((∀ d, result (checkInvariants d) = inr () ↔
           (∀ h e, (h, e) ∈ operators_ d → entry_checkInvariants (op e) = true)
           ∧ fallthrough_ok d)
     ∧ (∀ d tag, backend_tag tag →
          has (backendsWithoutFallthrough_ d) tag = false →
          isFallthrough (table_at (backendFallbackKernels_ d) tag) = false →
          result (checkInvariants d) ≠ inr ())
     ∧ (result (checkInvariants w.1) = inr () ↔
        ∀ h e, (h, e) ∈ operators_ w.1 → entry_checkInvariants (op e) = true))
  ∧ (isFallthrough kern = true →
     ∀ t, result (registerFallback k kern w.1) = inr t →
          t = DeregisterFallback k
          ∧ has (backendsWithoutFallthrough_
                   (state (registerFallback k kern w.1))) k = false
          ∧ has (backendsWithoutFallthrough_
                   (state (release t (state (registerFallback k kern w.1))))) k
            = true).
Proof.
  intros Hw. split_and!.
  - by apply reachable_fallthrough_ok.
  - apply checkInvariants_spec.
  - intros d tag Htag Hhas Hkern [_ Hfb]%checkInvariants_spec.
    destruct (Hfb tag Htag Hhas) as (kern' & Hk & Hft).
    unfold table_at in Hkern. rewrite Hk in Hkern. simpl in Hkern. congruence.
  - rewrite checkInvariants_spec. split; [by intros [? _]|].
    intros Hall. split; [done|]. by apply reachable_fallthrough_ok.
  - intros Hf t. rewrite registerFallback_run.
    destruct (backendFallbackKernels_ w.1 !! k); [done|].
    rewrite Hf. cbn [result state fst snd]. intros [= <-].
    split_and!; [done| |].
    + apply has_remove. by left.
    + cbn [release]. rewrite deregisterFallback_run. simpl.
      unfold has, add. apply bool_decide_eq_true. set_solver.
Qed.

Lemma callbacks_silent (evs : list Event) :
  Forall (λ ev, is_callback ev = false) evs → callbacks evs = [].
Proof.
  unfold callbacks. induction 1 as [|ev evs Hev _ IH]; [done|].
  rewrite filter_cons_False by congruence. done.
Qed.

(** C9.  [registerImpl] and [deregisterImpl_] call no listener, in any
    registry.  In a reachable registry [registerDef] calls listeners only
    when the operator had no definition before (its [def_count] was zero, or
    it did not exist) and has [def_count = 1] afterwards, and the release of
    a definition handle calls listeners only when [def_count] was one, so
    that it returns to zero. *)
Theorem implementations_invisible_to_listeners w :
  reachable w →
  (∀ n dk k inferred dbg,
     callbacks (events (registerImpl n dk k inferred dbg w.1)) = [])
  ∧ (∀ h n dk kh, callbacks (events (deregisterImpl_ h n dk kh w.1)) = [])
  ∧ (∀ s, callbacks (events (registerDef s w.1)) ≠ [] →
       (∀ h e, findOperatorByName (operator_name s) w.1 = Some h →
               lookup_node h (operators_ w.1) = Some e → def_count e = 0)
       ∧ ∃ h e', findOperatorByName (operator_name s) (state (registerDef s w.1))
                   = Some h
                 ∧ lookup_node h (operators_ (state (registerDef s w.1))) = Some e'
                 ∧ def_count e' = 1)
  ∧ (∀ i h n e,
       w.2 !! i = Some (DeregisterDef h n) →
       lookup_node h (operators_ w.1) = Some e →
       callbacks (events (deregisterDef_ h n w.1)) ≠ [] →
       def_count e = 1).
Proof.
  intros Hok%reachable_ok. destruct w as [d toks]. cbn [fst snd].
  split_and!.
  - intros. apply callbacks_silent, silent_registerImpl.
  - intros. apply callbacks_silent, silent_deregisterImpl_.
  - intros s.
    destruct (findOperatorByName (operator_name s) d) as [h|] eqn:Hf.
    + destruct (registry_ok_found _ _ _ _ Hok Hf) as (e & He & Hn & [? ? ? ? Hsch Hsn]).
      destruct (decide (def_count e = 0)) as [Hz|Hnz].
      * rewrite (registerDef_undefined _ _ _ _ Hf He Hz).
        cbn [events state fst snd]. intros _. split.
        -- intros h' e' [= <-]. congruence.
        -- exists h. eexists. split; [exact Hf|].
           split; [by erewrite lookup_stored, decide_True|]. simpl. lia.
      * destruct (schema_ (op e)) as [s0|] eqn:Hs; [|by destruct Hnz; apply Hsch].
        rewrite (registerDef_defined _ _ _ _ _ Hf He Hnz Hs).
        by destruct (schema_check s0 s).
    + pose proof (registry_ok_fresh _ _ Hok) as Hfresh.
      rewrite (registerDef_fresh _ _ Hf Hfresh).
      cbn [events state fst snd]. intros _. split; [done|].
      exists (next_node_ d). eexists. split.
      * unfold findOperatorByName, created. simpl. apply lookup_insert_eq.
      * split; [by apply lookup_created|]. done.
  - intros i h n e Hi He.
    assert (registry_ok (d, DeregisterDef h n :: delete i toks)) as Hok'.
    { eapply registry_ok_perm; [|exact Hok]. by apply delete_Permutation. }
    destruct (ok_tokens _ Hok' (DeregisterDef h n) h n) as (e0 & He0 & Hn);
      [left|done|].
    cbn [fst snd] in *. rewrite He in He0. injection He0 as <-.
    destruct (ok_entries _ Hok' h e He) as [Hdef Himpl Hcnt Hpos Hsch Hsn].
    cbn [fst snd] in *. rewrite def_names_def in Hdef. simpl in Hdef.
    destruct (schema_ (op e)) as [s|] eqn:Hs;
      [|destruct Hsch as [Hsch _]; specialize (Hsch eq_refl); lia].
    rewrite (deregisterDef_run h n d e s He Hs) by (by rewrite ?Hsn || lia).
    cbn [def_count with_def_and_impl_count with_def_count].
    destruct (bool_decide (0 = pred (def_count e))) eqn:Hz.
    + apply bool_decide_eq_true in Hz. intros _. lia.
    + intros Hcb. destruct Hcb.
      destruct (bool_decide (0 = def_and_impl_count _));
        [destruct (prepareForDeregistration _)|]; reflexivity.
Qed.

(** C10.  [registerFallback] and [deregisterFallback_] change the fallback
    table and [backendsWithoutFallthrough_] without taking [mutex_]: they
    produce no event at all.  The other mutating functions hold the lock
    from their first to their last event. *)
Theorem fallback_registration_takes_no_lock d k kern :
  events (registerFallback k kern d) = []
  ∧ events (deregisterFallback_ k d) = []
  ∧ (∀ s, ∃ evs, events (registerDef s d) = Lock :: evs ++ [Unlock])
  ∧ (∀ h n, ∃ evs, events (deregisterDef_ h n d) = Lock :: evs ++ [Unlock])
  ∧ (∀ n dk kernel inferred dbg,
       ∃ evs, events (registerImpl n dk kernel inferred dbg d)
              = Lock :: evs ++ [Unlock])
  ∧ (∀ h n dk kh,
       ∃ evs, events (deregisterImpl_ h n dk kh d) = Lock :: evs ++ [Unlock])
  ∧ (∀ l, ∃ evs, events (addRegistrationListener l d) = Lock :: evs ++ [Unlock]).
Proof.
  split_and!.
  - rewrite registerFallback_run.
    by destruct (backendFallbackKernels_ d !! k).
  - by rewrite deregisterFallback_run.
  - intros. by eexists.
  - intros. by eexists.
  - intros. by eexists.
  - intros. by eexists.
  - intros. by eexists.
Qed.

(** * Further properties of the registry *)

Lemma token_name_of_entry d toks t h n e :
  registry_ok (d, toks) → t ∈ toks → token_op t = Some (h, n) →
  lookup_node h (operators_ d) = Some e → n = name_ (op e).
Proof.
  intros Hok Ht Hop He.
  destruct (ok_tokens _ Hok t h n Ht Hop) as (e' & He' & <-).
  cbn [fst snd] in *. congruence.
Qed.

(** X1.  The counts are exact: in a reachable registry [def_count] of an
    operator is the number of its definition handles that are alive, its
    number of kernels is the number of its kernel handles that are alive,
    [def_and_impl_count] is the sum of the two, and every live handle of the
    operator carries the operator's name. *)
Theorem reference_counts_exact w h e :
  reachable w →
  lookup_node h (operators_ w.1) = Some e →
  def_count e = length (def_names h w.2)
  ∧ length (kernels_ (op e)) = length (impl_keys h w.2)
  ∧ def_and_impl_count e = length (def_names h w.2) + length (impl_keys h w.2)
  ∧ (∀ t n, t ∈ w.2 → token_op t = Some (h, n) → n = name_ (op e)).
Proof.
  intros Hok%reachable_ok He.
  destruct (ok_entries _ Hok h e He) as [Hdef Himpl Hcnt _ _ _].
  apply Permutation_length in Himpl. rewrite length_fmap in Himpl.
  split_and!; [done|done|lia|].
  intros t n Ht Hop. destruct w as [d toks].
  by eapply token_name_of_entry.
Qed.

Lemma def_names_elem h n toks : n ∈ def_names h toks ↔ DeregisterDef h n ∈ toks.
Proof.
  unfold def_names. rewrite list_elem_of_omap. split.
  - intros (t & Ht & Hn). destruct t as [h' n'| |]; try done.
    case_decide; by simplify_eq.
  - intros Ht. eexists; split; [done|]. simpl. by rewrite decide_True.
Qed.

Lemma findSchema_returns d toks n :
  registry_ok (d, toks) → ∃ r, findSchema n d = inr r.
Proof.
  intros Hok. unfold findSchema.
  destruct (findOperatorByName n d) as [h'|] eqn:Hf; [|eauto].
  destruct (registry_ok_found _ _ _ _ Hok Hf) as (e & -> & _).
  destruct (hasSchema (op e)); eauto.
Qed.

Lemma findSchema_alive d toks n h :
  registry_ok (d, toks) →
  findSchema n d = inr (Some h) ↔ DeregisterDef h n ∈ toks.
Proof.
  intros Hok. unfold findSchema, hasSchema. split.
  - destruct (findOperatorByName n d) as [h'|] eqn:Hf; [|done].
    destruct (registry_ok_found _ _ _ _ Hok Hf) as (e & He & Hn & Hent).
    rewrite He. destruct (schema_ (op e)) as [s|] eqn:Hs; [|done].
    intros [= ->].
    destruct Hent as [Hdef _ _ _ Hsch _].
    destruct (def_names h toks) as [|n' l] eqn:Hd.
    { simpl in Hdef. destruct Hsch as [_ Hsch]. specialize (Hsch Hdef). congruence. }
    assert (DeregisterDef h n' ∈ toks) as Hin.
    { apply def_names_elem. rewrite Hd. left. }
    by rewrite <-Hn, <-(token_name_of_entry _ _ _ _ _ _ Hok Hin eq_refl He).
  - intros Hin.
    destruct (ok_tokens _ Hok _ h n Hin eq_refl) as (e & He & Hn).
    cbn [fst snd] in *.
    assert (findOperatorByName n d = Some h) as -> by (apply (ok_table _ Hok); eauto).
    rewrite He.
    destruct (ok_entries _ Hok h e He) as [Hdef _ _ _ Hsch _].
    cbn [fst snd] in *.
    destruct (schema_ (op e)); [done|].
    destruct Hsch as [Hsch _]. specialize (Hsch eq_refl).
    apply def_names_elem in Hin. rewrite Hsch in Hdef.
    destruct (def_names h toks); [by apply elem_of_nil in Hin|done].
Qed.

Lemma findOperatorByName_alive d toks n h :
  registry_ok (d, toks) →
  findOperatorByName n d = Some h ↔ ∃ t, t ∈ toks ∧ token_op t = Some (h, n).
Proof.
  intros Hok. split.
  - intros Hf.
    destruct (registry_ok_found _ _ _ _ Hok Hf) as (e & He & Hn & Hent).
    destruct (token_of_entry _ _ _ Hent) as (t & n' & Ht & Hop).
    exists t. split; [done|].
    by rewrite Hop, (token_name_of_entry _ _ _ _ _ _ Hok Ht Hop He), Hn.
  - intros (t & Ht & Hop).
    destruct (ok_tokens _ Hok t h n Ht Hop) as (e & He & Hn).
    apply (ok_table _ Hok). eauto.
Qed.

(** X2.  In a reachable registry [findSchema] yields the handle [h] for a
    name exactly when a definition handle of [h] for that name is alive;
    it never fails. *)
Theorem findSchema_iff_definition_alive w n h :
  reachable w →
  (findSchema n w.1 = inr (Some h) ↔ DeregisterDef h n ∈ w.2)
  ∧ (∃ r, findSchema n w.1 = inr r).
Proof.
  intros Hok%reachable_ok. destruct w as [d toks]. cbn [fst snd].
  split; [by apply findSchema_alive | by eapply findSchema_returns].
Qed.

Lemma append_ne s t : t ≠ EmptyString → s +:+ t ≠ s.
Proof.
  intros Ht. induction s as [|a s IH]; simpl; [done|].
  intros [= H]. by apply IH.
Qed.

(** X3.  [findSchemaOrThrow] tells the three situations of a name apart: in
    a reachable registry it returns the handle exactly when a definition
    handle for the name is alive; it fails with the text that ends in
    [did you forget to def() the operator?] exactly when handles for the
    name are alive but none of them is a definition; and it fails with the
    plain text exactly when no handle for the name is alive. *)
Theorem findSchemaOrThrow_diagnosis w name overload_name :
  reachable w →
  (∀ h, findSchemaOrThrow name overload_name w.1 = inr h
        ↔ DeregisterDef h (name, overload_name) ∈ w.2)
  ∧ (findSchemaOrThrow name overload_name w.1 =
       inl (CheckFailed
              (missing_schema name overload_name +:+
               " but we found an implementation; did you forget to def() the operator?"))
     ↔ (∃ t h, t ∈ w.2 ∧ token_op t = Some (h, (name, overload_name)))
       ∧ ∀ h, DeregisterDef h (name, overload_name) ∉ w.2)
  ∧ (findSchemaOrThrow name overload_name w.1 =
       inl (CheckFailed (missing_schema name overload_name))
     ↔ ∀ t h, t ∈ w.2 → token_op t ≠ Some (h, (name, overload_name))).
Proof.
  intros Hok%reachable_ok. destruct w as [d toks]. cbn [fst snd].
  pose proof (λ h, findSchema_alive d toks (name, overload_name) h Hok) as Hdef.
  pose proof (λ h, findOperatorByName_alive d toks (name, overload_name) h Hok) as Hany.
  destruct (findSchema_returns d toks (name, overload_name) Hok) as [r Hr].
  unfold findSchemaOrThrow. rewrite Hr in *.
  destruct r as [h0|].
  - split_and!.
    + intros h. rewrite <-Hdef. split; congruence.
    + split; [done|]. intros [_ Hno]. destruct (Hno h0). by apply Hdef.
    + split; [done|]. intros Hno.
      assert (DeregisterDef h0 (name, overload_name) ∈ toks) as Hin by by apply Hdef.
      by destruct (Hno _ h0 Hin).
  - assert (∀ h, DeregisterDef h (name, overload_name) ∉ toks) as Hnodef.
    { intros h Hin. apply Hdef in Hin. done. }
    destruct (findOperatorByName (name, overload_name) d) as [h0|] eqn:Hf.
    + split_and!.
      * intros h. split; [done|]. intros Hin. by destruct (Hnodef h).
      * split; [|done]. intros _. split; [|done].
        destruct (proj1 (Hany h0) eq_refl) as (t & Ht & Hop). eauto.
      * split.
        -- intros [= H]. by apply append_ne in H.
        -- intros Hno. destruct (proj1 (Hany h0) eq_refl) as (t & Ht & Hop).
           by destruct (Hno t h0 Ht).
    + split_and!.
      * intros h. split; [done|]. intros Hin. by destruct (Hnodef h).
      * split.
        -- intros [= H]. symmetry in H. by apply append_ne in H.
        -- intros [(t & h & Ht & Hop) _].
           assert (None = Some h) by (apply Hany; eauto). done.
      * split; [|done]. intros _ t h Ht Hop.
        assert (None = Some h) by (apply Hany; eauto). done.
Qed.

(** ** Relations that every step of a call preserves *)

Section preserves.
Context (R : relation Dispatcher) `{!PreOrder R}.

Lemma preserves_ret {A} (a : A) : preserves R (mret a).
Proof. intros d. simpl. reflexivity. Qed.

Lemma preserves_throw {A} e : preserves R (@throw A e).
Proof. intros d. simpl. reflexivity. Qed.

Lemma preserves_get : preserves R get.
Proof. intros d. simpl. reflexivity. Qed.

Lemma preserves_emit evs : preserves R (emit evs).
Proof. intros d. simpl. reflexivity. Qed.

Lemma preserves_modify f : (∀ d, R d (f d)) → preserves R (modify f).
Proof. intros Hf d. apply Hf. Qed.

Lemma preserves_bind {A B} (m : M A) (f : A → M B) :
  preserves R m → (∀ a, preserves R (f a)) → preserves R (m ≫= f).
Proof.
  intros Hm Hf d. specialize (Hm d).
  unfold mbind, M_bind, state in *.
  destruct (m d) as [[[e|a] d1] ev1]; simpl in *; [done|].
  etransitivity; [exact Hm|]. apply (Hf a d1).
Qed.

Lemma preserves_lock_guard {A} (m : M A) : preserves R m → preserves R (lock_guard m).
Proof. intros Hm d. apply Hm. Qed.

Lemma preserves_deref h : preserves R (deref h).
Proof.
  intros d. unfold deref.
  destruct (lookup_node h (operators_ d)); simpl; reflexivity.
Qed.

Lemma preserves_check c e : preserves R (TORCH_CHECK c e).
Proof. intros d. destruct c; simpl; reflexivity. Qed.

Lemma preserves_assert c : preserves R (TORCH_INTERNAL_ASSERT c).
Proof. intros d. destruct c; simpl; reflexivity. Qed.

Lemma preserves_for_each {A} (l : list A) body :
  (∀ x, preserves R (body x)) → preserves R (for_each l body).
Proof.
  intros Hb. induction l as [|x l IH]; simpl.
  - apply preserves_ret.
  - apply preserves_bind; auto.
Qed.

End preserves.

#[local] Instance index_le_preorder : PreOrder index_le.
Proof. split; [by intros d n h|]. intros d1 d2 d3 H1 H2 n h Hn. auto. Qed.

#[local] Instance same_listeners_preorder : PreOrder same_listeners.
Proof.
  split; [by intros d|]. unfold same_listeners. intros d1 d2 d3 H1 H2. congruence.
Qed.

Lemma index_le_emplace n h d : index_le d (set_lookup (emplace n h) d).
Proof.
  intros n' h' Hn. simpl. unfold emplace.
  destruct (operatorLookupTable_ d !! n) eqn:Hl; [done|].
  rewrite lookup_insert_ne; [done|]. congruence.
Qed.

(** Goes through the code of a call; what is left are the field updates
    that the relation looks at. *)
Ltac preserve :=
  repeat first
    [ progress (intros; cbv beta zeta)
    | match goal with
      | |- preserves _ (_ ≫= _) => apply preserves_bind
      | |- preserves _ (lock_guard _) => apply preserves_lock_guard
      | |- preserves _ (mret _) => apply preserves_ret
      | |- preserves _ (throw _) => apply preserves_throw
      | |- preserves _ get => apply preserves_get
      | |- preserves _ (emit _) => apply preserves_emit
      | |- preserves _ (deref _) => apply preserves_deref
      | |- preserves _ (TORCH_CHECK _ _) => apply preserves_check
      | |- preserves _ (TORCH_INTERNAL_ASSERT _) => apply preserves_assert
      | |- preserves _ (for_each _ _) => apply preserves_for_each
      | |- preserves _ (callOnOperatorRegistered _) => apply preserves_emit
      | |- preserves _ (callOnOperatorDeregistered _) => apply preserves_emit
      | |- preserves _ (onOperatorRegistered _ _) => apply preserves_emit
      | |- preserves index_le (modify (set_lookup (emplace _ _))) =>
          apply preserves_modify, index_le_emplace
      | |- preserves index_le (modify ?f) =>
          lazymatch f with
          | set_lookup _ => fail
          | _ => apply preserves_modify; by intros ? ? ?
          end
      | |- preserves same_listeners (modify ?f) =>
          lazymatch f with
          | push_listener _ => fail
          | _ => apply preserves_modify; by intros ?
          end
      end
    | match goal with
      | |- preserves _ (match ?x with _ => _ end) => destruct x
      | |- PreOrder _ => apply _
      end
    | assumption ].

Section preserved.
Context (R : relation Dispatcher) `{!PreOrder R}.
Hypothesis set_operators_ok : ∀ f, preserves R (modify (set_operators f)).
Hypothesis emplace_back_ok : ∀ n, preserves R (modify (emplace_back n)).
Hypothesis emplace_ok : ∀ n h, preserves R (modify (set_lookup (emplace n h))).

Lemma preserves_assign h f : preserves R (assign h f).
Proof. unfold assign. preserve. apply set_operators_ok. Qed.

Lemma preserves_handle_schema h : preserves R (handle_schema h).
Proof. unfold handle_schema. preserve. Qed.

Lemma preserves_findOrRegisterName_ n : preserves R (findOrRegisterName_ n).
Proof.
  unfold findOrRegisterName_. preserve;
    [apply emplace_back_ok | apply emplace_ok].
Qed.

Lemma preserves_checkSchemaCompatibility h s :
  preserves R (checkSchemaCompatibility h s).
Proof.
  unfold checkSchemaCompatibility. preserve; apply preserves_handle_schema.
Qed.

Lemma preserves_registerDef s : preserves R (registerDef s).
Proof.
  unfold registerDef. preserve;
    first [ apply preserves_findOrRegisterName_ | apply preserves_assign
          | apply preserves_checkSchemaCompatibility ].
Qed.

Lemma preserves_registerImpl n dk k inferred dbg :
  preserves R (registerImpl n dk k inferred dbg).
Proof.
  unfold registerImpl. preserve;
    first [ apply preserves_findOrRegisterName_ | apply preserves_assign ].
Qed.

End preserved.

Section preserved_release.
Context (R : relation Dispatcher) `{!PreOrder R}.
Hypothesis set_operators_ok : ∀ f, preserves R (modify (set_operators f)).
Hypothesis set_lookup_ok : ∀ f, preserves R (modify (set_lookup f)).

Lemma preserves_cleanup h n : preserves R (cleanup h n).
Proof.
  unfold cleanup. preserve; [apply set_operators_ok | apply set_lookup_ok].
Qed.

Lemma preserves_deregisterDef_ h n : preserves R (deregisterDef_ h n).
Proof.
  unfold deregisterDef_. preserve;
    first [ by apply preserves_handle_schema | by apply preserves_assign
          | apply preserves_cleanup ].
Qed.

Lemma preserves_deregisterImpl_ h n dk kh : preserves R (deregisterImpl_ h n dk kh).
Proof.
  unfold deregisterImpl_. preserve;
    first [ by apply preserves_assign | apply preserves_cleanup ].
Qed.

End preserved_release.

(** ** The lookup index *)

Lemma index_le_assign h f : preserves index_le (assign h f).
Proof. apply preserves_assign; [apply _|]. preserve. Qed.

Lemma index_le_handle_schema h : preserves index_le (handle_schema h).
Proof. apply preserves_handle_schema, _. Qed.

Lemma index_le_registerDef s : preserves index_le (registerDef s).
Proof. apply preserves_registerDef; [apply _|..]; preserve. Qed.

Lemma index_le_registerImpl n dk k inferred dbg :
  preserves index_le (registerImpl n dk k inferred dbg).
Proof. apply preserves_registerImpl; [apply _|..]; preserve. Qed.

Lemma index_le_addRegistrationListener l :
  preserves index_le (addRegistrationListener l).
Proof. unfold addRegistrationListener, addListener. preserve. Qed.

Lemma keeps_or_drops_index_preserves {A} (m : M A) :
  preserves index_le m → keeps_or_drops_index m.
Proof. intros Hm d n h Hn. left. by apply Hm. Qed.

Lemma keeps_or_drops_index_bind {A B} (m : M A) (f : A → M B) :
  preserves index_le m → (∀ a, keeps_or_drops_index (f a)) →
  keeps_or_drops_index (m ≫= f).
Proof.
  intros Hm Hf d n h Hn. specialize (Hm d n h Hn).
  unfold mbind, M_bind, state in *.
  destruct (m d) as [[[e|a] d1] ev1]; simpl in *; [by left|].
  apply (Hf a d1 n h Hm).
Qed.

Lemma keeps_or_drops_index_lock_guard {A} (m : M A) :
  keeps_or_drops_index m → keeps_or_drops_index (lock_guard m).
Proof. intros Hm d. apply Hm. Qed.

Lemma keeps_or_drops_index_erase n :
  keeps_or_drops_index (modify (set_lookup (delete n))).
Proof.
  intros d n' h Hn. simpl. destruct (decide (n = n')) as [->|Hne].
  - right. apply lookup_delete_eq.
  - left. by rewrite lookup_delete_ne.
Qed.

Ltac keep_or_drop :=
  repeat first
    [ progress (intros; cbv beta zeta)
    | match goal with
      | |- keeps_or_drops_index (lock_guard _) =>
          apply keeps_or_drops_index_lock_guard
      | |- keeps_or_drops_index (_ ≫= _) =>
          apply keeps_or_drops_index_bind;
          [first [ apply index_le_assign | apply index_le_handle_schema
                 | solve [preserve; apply index_le_assign] ]|]
      | |- keeps_or_drops_index (modify (set_lookup (delete _))) =>
          apply keeps_or_drops_index_erase
      | |- keeps_or_drops_index (mret _) =>
          apply keeps_or_drops_index_preserves, preserves_ret, _
      | |- keeps_or_drops_index (throw _) =>
          apply keeps_or_drops_index_preserves, preserves_throw, _
      end
    | match goal with
      | |- keeps_or_drops_index (match ?x with _ => _ end) => destruct x
      end ].

Lemma keeps_or_drops_index_cleanup h n : keeps_or_drops_index (cleanup h n).
Proof. unfold cleanup. keep_or_drop. Qed.

Lemma keeps_or_drops_index_deregisterDef_ h n :
  keeps_or_drops_index (deregisterDef_ h n).
Proof. unfold deregisterDef_. keep_or_drop. apply keeps_or_drops_index_cleanup. Qed.

Lemma keeps_or_drops_index_deregisterImpl_ h n dk kh :
  keeps_or_drops_index (deregisterImpl_ h n dk kh).
Proof. unfold deregisterImpl_. keep_or_drop. apply keeps_or_drops_index_cleanup. Qed.

(** X4.  A name never moves to another operator: whatever the call and
    whatever the registry, a name that the lookup index maps to the handle
    [h] is mapped to [h] afterwards or is no longer in the index. *)
Theorem operator_handle_stable c w n h :
  findOperatorByName n w.1 = Some h →
  findOperatorByName n (perform c w).1 = Some h
  ∨ findOperatorByName n (perform c w).1 = None.
Proof.
  destruct w as [d toks]. unfold findOperatorByName. cbn [fst snd]. intros Hn.
  destruct c; cbn [perform fst snd]; unfold keep_handle.
  - left. pose proof (index_le_registerDef schema d n h Hn).
    by destruct (result _).
  - left. pose proof (index_le_registerImpl op_name dispatch_key kernel0
                        inferred_function_schema0 debug0 d n h Hn).
    by destruct (result _).
  - left. rewrite registerFallback_run.
    destruct (backendFallbackKernels_ d !! dispatchKey); [done|].
    by destruct (isFallthrough kernel0).
  - left. apply (index_le_addRegistrationListener listener d n h Hn).
  - destruct (toks !! i) as [[h' n'|h' n' dk kh|k]|]; cbn [fst release]; [..|by left].
    + by apply keeps_or_drops_index_deregisterDef_.
    + by apply keeps_or_drops_index_deregisterImpl_.
    + left. by rewrite deregisterFallback_run.
Qed.

(** ** The footprint of a call *)

Lemma same_listeners_registerDef s : preserves same_listeners (registerDef s).
Proof. apply preserves_registerDef; [apply _|..]; preserve. Qed.

Lemma same_listeners_registerImpl n dk k inferred dbg :
  preserves same_listeners (registerImpl n dk k inferred dbg).
Proof. apply preserves_registerImpl; [apply _|..]; preserve. Qed.

Lemma same_listeners_deregisterDef_ h n : preserves same_listeners (deregisterDef_ h n).
Proof. apply preserves_deregisterDef_; [apply _|..]; preserve. Qed.

Lemma same_listeners_deregisterImpl_ h n dk kh :
  preserves same_listeners (deregisterImpl_ h n dk kh).
Proof. apply preserves_deregisterImpl_; [apply _|..]; preserve. Qed.

Lemma registerFallback_footprint k kern d :
  same_operators d (state (registerFallback k kern d))
  ∧ same_listeners d (state (registerFallback k kern d)).
Proof.
  rewrite registerFallback_run.
  destruct (backendFallbackKernels_ d !! k); [done|].
  by destruct (isFallthrough kern).
Qed.

Lemma deregisterFallback_footprint k d :
  same_operators d (state (deregisterFallback_ k d))
  ∧ same_listeners d (state (deregisterFallback_ k d)).
Proof. by rewrite deregisterFallback_run. Qed.

(** X5.  Every call has its own part of the registry, in every registry
    and whether it returns or throws: registering and releasing definitions
    and kernels leaves the fallback table, [backendsWithoutFallthrough_] and
    the listeners as they are; registering and releasing a fallback leaves
    the operators, the lookup index and the listeners as they are; and
    [addRegistrationListener] only appends the listener. *)
Theorem call_footprint c w :
  match c with
  | RegisterDef _ | RegisterImpl _ _ _ _ _ =>
      same_fallbacks w.1 (perform c w).1 ∧ same_listeners w.1 (perform c w).1
  | RegisterFallback _ _ =>
      same_operators w.1 (perform c w).1 ∧ same_listeners w.1 (perform c w).1
  | AddRegistrationListener listener =>
      same_operators w.1 (perform c w).1 ∧ same_fallbacks w.1 (perform c w).1
      ∧ listeners_ (perform c w).1 = listeners_ w.1 ++ [listener]
  | Release i =>
      match w.2 !! i with
      | Some (DeregisterFallback _) =>
          same_operators w.1 (perform c w).1 ∧ same_listeners w.1 (perform c w).1
      | Some _ =>
          same_fallbacks w.1 (perform c w).1 ∧ same_listeners w.1 (perform c w).1
      | None => perform c w = w
      end
  end.
Proof.
  destruct w as [d toks].
  destruct c; cbn [perform fst snd]; unfold keep_handle.
  - pose proof (keeps_fallbacks_registerDef schema d).
    pose proof (same_listeners_registerDef schema d).
    by destruct (result _).
  - pose proof (keeps_fallbacks_registerImpl op_name dispatch_key kernel0
                  inferred_function_schema0 debug0 d).
    pose proof (same_listeners_registerImpl op_name dispatch_key kernel0
                  inferred_function_schema0 debug0 d).
    by destruct (result _).
  - pose proof (registerFallback_footprint dispatchKey kernel0 d).
    by destruct (result _).
  - by rewrite addRegistrationListener_run.
  - destruct (toks !! i) as [[h n|h n dk kh|k]|]; cbn [fst release]; [..|done].
    + split; [apply (keeps_fallbacks_deregisterDef_ h n d)
             | apply same_listeners_deregisterDef_].
    + split; [apply (keeps_fallbacks_deregisterImpl_ h n dk kh d)
             | apply same_listeners_deregisterImpl_].
    + apply deregisterFallback_footprint.
Qed.

(** ** The fallback handles *)

Lemma returns_ret {A} (P : A → Prop) a : P a → returns P (mret a).
Proof. intros HP d a' [= <-]. done. Qed.

Lemma returns_bind {A B} (P : B → Prop) (m : M A) (f : A → M B) :
  (∀ a, returns P (f a)) → returns P (m ≫= f).
Proof.
  intros Hf d b. unfold mbind, M_bind, result.
  destruct (m d) as [[[e|a] d1] ev1]; simpl; [done|]. apply Hf.
Qed.

Lemma returns_lock_guard {A} (P : A → Prop) (m : M A) :
  returns P m → returns P (lock_guard m).
Proof. intros Hm d. apply Hm. Qed.

Ltac returning :=
  repeat first
    [ progress (intros; cbv beta zeta)
    | match goal with
      | |- returns _ (lock_guard _) => apply returns_lock_guard
      | |- returns _ (_ ≫= _) => apply returns_bind
      | |- returns _ (mret _) => by apply returns_ret
      end ].

Lemma registerDef_returns s :
  returns (λ t, fallback_keys [t] = []) (registerDef s).
Proof. unfold registerDef. returning. Qed.

Lemma registerImpl_returns n dk k inferred dbg :
  returns (λ t, fallback_keys [t] = []) (registerImpl n dk k inferred dbg).
Proof. unfold registerImpl. returning. Qed.

Lemma fallback_keys_app l1 l2 :
  fallback_keys (l1 ++ l2) = fallback_keys l1 ++ fallback_keys l2.
Proof. apply omap_app. Qed.

Lemma fallback_keys_delete toks i t :
  toks !! i = Some t →
  fallback_keys toks =
  fallback_keys (take i toks) ++ fallback_keys [t] ++ fallback_keys (drop (S i) toks)
  ∧ fallback_keys (delete i toks) =
    fallback_keys (take i toks) ++ fallback_keys (drop (S i) toks).
Proof.
  intros Ht. rewrite delete_take_drop, <-!fallback_keys_app. split; [|done].
  f_equal. symmetry. by apply take_drop_middle.
Qed.

Lemma fallbacks_ok_frame d d' toks toks' :
  backendFallbackKernels_ d' = backendFallbackKernels_ d →
  fallback_keys toks' = fallback_keys toks →
  fallbacks_ok (d, toks) → fallbacks_ok (d', toks').
Proof. unfold fallbacks_ok. cbn [fst snd]. by intros -> ->. Qed.

Lemma perform_fallbacks_ok c w : fallbacks_ok w → fallbacks_ok (perform c w).
Proof.
  destruct w as [d toks]. intros Hok.
  destruct c; cbn [perform fst snd]; unfold keep_handle.
  - pose proof (keeps_fallbacks_registerDef schema d) as [Hk _].
    pose proof (registerDef_returns schema d) as Hr.
    destruct (result _) as [|t]; (eapply fallbacks_ok_frame; [exact Hk| |exact Hok]);
      [done|].
    rewrite fallback_keys_app, (Hr t eq_refl). apply app_nil_r.
  - pose proof (keeps_fallbacks_registerImpl op_name dispatch_key kernel0
                  inferred_function_schema0 debug0 d) as [Hk _].
    pose proof (registerImpl_returns op_name dispatch_key kernel0
                  inferred_function_schema0 debug0 d) as Hr.
    destruct (result _) as [|t]; (eapply fallbacks_ok_frame; [exact Hk| |exact Hok]);
      [done|].
    rewrite fallback_keys_app, (Hr t eq_refl). apply app_nil_r.
  - rewrite registerFallback_run.
    destruct (backendFallbackKernels_ d !! dispatchKey) as [kern|] eqn:Hk; [done|].
    destruct Hok as [Hnd Hiff]. cbn [fst snd result state] in *.
    assert (dispatchKey ∉ fallback_keys toks) as Hnot.
    { rewrite Hiff, Hk. by intros [? ?]. }
    split; cbn [fst snd]; rewrite fallback_keys_app.
    + apply NoDup_app. split_and!; [done| |apply NoDup_singleton].
      intros k Hin ->%list_elem_of_singleton. done.
    + intros k. rewrite elem_of_app, Hiff.
      assert (backendFallbackKernels_
                (if isFallthrough kernel0
                 then set_without_fallthrough
                        (remove (backendsWithoutFallthrough_ d) dispatchKey)
                        (set_fallbacks (<[dispatchKey:=kernel0]> (backendFallbackKernels_ d)) d)
                 else set_fallbacks (<[dispatchKey:=kernel0]> (backendFallbackKernels_ d)) d)
              = <[dispatchKey:=kernel0]> (backendFallbackKernels_ d)) as ->
        by by destruct (isFallthrough kernel0).
      rewrite lookup_insert_is_Some. simpl. rewrite list_elem_of_singleton.
      destruct (decide (dispatchKey = k)) as [->|]; naive_solver.
  - eapply fallbacks_ok_frame; [|reflexivity|exact Hok].
    apply (keeps_fallbacks_addRegistrationListener listener d).
  - destruct (toks !! i) as [t|] eqn:Ht; [|done].
    destruct (fallback_keys_delete _ _ _ Ht) as [Hall Hdel].
    destruct t as [h n|h n dk kh|k]; cbn [fst release].
    + eapply fallbacks_ok_frame; [|by rewrite Hdel, Hall|exact Hok].
      apply (keeps_fallbacks_deregisterDef_ h n d).
    + eapply fallbacks_ok_frame; [|by rewrite Hdel, Hall|exact Hok].
      apply (keeps_fallbacks_deregisterImpl_ h n dk kh d).
    + rewrite deregisterFallback_run. cbn [state fst snd].
      destruct Hok as [Hnd Hiff]. cbn [fst snd] in *.
      rewrite Hall in Hnd, Hiff. simpl in Hnd, Hiff.
      apply NoDup_app in Hnd as (Hnd1 & Hdis & [Hk Hnd2]%NoDup_cons).
      split; cbn [fst snd]; rewrite Hdel.
      * apply NoDup_app. split_and!; [done| |done].
        intros k' H1 H2. apply (Hdis k' H1). by right.
      * intros k'. simpl. rewrite lookup_delete_is_Some, <-Hiff.
        rewrite !elem_of_app, elem_of_cons.
        split; [|naive_solver].
        intros [H1|H2]; split; auto.
        -- intros ->. apply (Hdis k' H1). by left.
        -- by intros ->.
Qed.

Lemma reachable_fallbacks_ok w : reachable w → fallbacks_ok w.
Proof.
  induction 1 as [|c w _ IH]; [|by apply perform_fallbacks_ok].
  split; simpl; [apply NoDup_nil_2|].
  intros k. rewrite lookup_empty. split; [by intros ?%elem_of_nil | by intros [? ?]].
Qed.

Lemma fallback_keys_elem k toks :
  k ∈ fallback_keys toks ↔ DeregisterFallback k ∈ toks.
Proof.
  unfold fallback_keys. rewrite list_elem_of_omap. split.
  - intros (t & Ht & Hk). destruct t; by simplify_eq.
  - intros Ht. by exists (DeregisterFallback k).
Qed.

(** X6.  The fallback table follows the fallback handles: in a reachable
    registry a tag has a kernel in [backendFallbackKernels_] exactly when a
    fallback handle of the tag is alive, no tag has two such handles, and
    [registerFallback] is rejected, with the error of a duplicate, exactly
    when a handle of the tag is alive; otherwise it returns the handle. *)
Theorem fallback_handles_exact w k kern :
  reachable w →
  (is_Some (backendFallbackKernels_ w.1 !! k) ↔ DeregisterFallback k ∈ w.2)
  ∧ NoDup (fallback_keys w.2)
  ∧ (result (registerFallback k kern w.1) = inl DuplicateFallback
     ↔ DeregisterFallback k ∈ w.2)
  ∧ (result (registerFallback k kern w.1) = inr (DeregisterFallback k)
     ↔ DeregisterFallback k ∉ w.2).
Proof.
  intros [Hnd Hiff]%reachable_fallbacks_ok.
  assert (is_Some (backendFallbackKernels_ w.1 !! k) ↔ DeregisterFallback k ∈ w.2)
    as Hk by by rewrite <-Hiff, fallback_keys_elem.
  split_and!; [done|done|..]; rewrite <-Hk, registerFallback_run;
    destruct (backendFallbackKernels_ w.1 !! k) as [kern0|]; cbn [result fst].
  - split; [eauto|done].
  - split; [done|]. by intros [? ?].
  - split; [done|]. intros []. eauto.
  - split; [|done]. intros _ [? ?]. done.
Qed.

(** X7.  Releasing a handle never fails: in a reachable registry the
    deregistration of every handle that is alive returns; none of the
    internal assertions of [deregisterDef_], [deregisterImpl_], [cleanup]
    and [deregisterFallback_] fires and no iterator dangles. *)
Theorem release_never_fails w i t :
  reachable w →
  w.2 !! i = Some t →
  result (release t w.1) = inr ().
Proof.
  intros Hw Ht. destruct w as [d toks]. cbn [fst snd] in *.
  pose proof (reachable_ok _ Hw) as Hok.
  assert (toks ≡ₚ t :: delete i toks) as Hperm by by apply delete_Permutation.
  pose proof (registry_ok_perm _ _ _ Hperm Hok) as Hok'.
  destruct (token_op t) as [[h n]|] eqn:Hop.
  - destruct (ok_tokens _ Hok t h n) as (e & He & Hn);
      [by eapply list_elem_of_lookup_2|done|]. cbn [fst snd] in *.
    by destruct (release_state _ _ _ _ _ _ Hok' Hop He) as [Hres _].
  - destruct t as [| |k]; try done. cbn [release].
    rewrite deregisterFallback_run. cbn [result fst].
    destruct (reachable_fallbacks_ok _ Hw) as [_ Hiff]. cbn [fst snd] in Hiff.
    assert (k ∈ fallback_keys toks) as Hin
      by (apply fallback_keys_elem; by eapply list_elem_of_lookup_2).
    apply Hiff in Hin as [kern ->]. done.
Qed.

(** ** Registration followed by release *)

Lemma erase_node_app_fresh h (l : list (OperatorHandle * OperatorDef)) e :
  lookup_node h l = None → erase_node h (l ++ [(h, e)]) = l.
Proof.
  induction l as [|[h2 e2] l IH]; simpl.
  - case_nodes.
  - destruct (decide (h2 = h)); [done|]. intros. f_equal; auto.
Qed.

Lemma update_node_id h (l : list (OperatorHandle * OperatorDef)) e :
  lookup_node h l = Some e → update_node h (λ _, e) l = l.
Proof.
  induction l as [|[h2 e2] l IH]; simpl; [done|].
  destruct (decide (h2 = h)) as [->|Hne]; intros Hl.
  - by injection Hl as ->.
  - f_equal; auto.
Qed.

Lemma same_registry_erased_created n e d :
  findOperatorByName n d = None →
  lookup_node (next_node_ d) (operators_ d) = None →
  same_registry d (erased (next_node_ d) n (created n e d)).
Proof.
  intros Hf Hl. unfold same_registry, erased, created. simpl.
  rewrite erase_node_app_fresh by done.
  by rewrite delete_insert_id.
Qed.

Lemma same_registry_stored h e d :
  lookup_node h (operators_ d) = Some e → same_registry d (stored h e d).
Proof.
  intros Hl. unfold same_registry, stored. simpl.
  by rewrite update_node_id.
Qed.

Lemma stored_stored h e1 e2 d : stored h e2 (stored h e1 d) = stored h e2 d.
Proof. unfold stored at 1. by rewrite update_stored. Qed.

Lemma def_released_attached s e :
  def_count e = 0 → schema_ (op e) = None →
  def_released (with_def_and_impl_count S (with_def_count S
                  (with_op (registerSchema s) e))) = e.
Proof.
  destruct e as [[nm sch ks nk] dc dic]. simpl. intros -> ->. done.
Qed.

Lemma def_released_added e :
  def_count e ≠ 0 →
  def_released (with_def_and_impl_count S (with_def_count S e)) = e.
Proof.
  destruct e as [o dc dic]. unfold def_released. simpl. intros Hnz.
  by rewrite bool_decide_false by lia.
Qed.

(** X8.  A definition that is registered and released again leaves no
    trace: in a reachable registry, for every [registerDef] that returns,
    releasing the handle it returned succeeds and gives back the operator
    list, the lookup index, the fallbacks and the listeners as they were
    before the registration. *)
Theorem registerDef_release_round_trip w s t :
  reachable w →
  result (registerDef s w.1) = inr t →
  result (release t (state (registerDef s w.1))) = inr ()
  ∧ same_registry w.1 (state (release t (state (registerDef s w.1)))).
Proof.
  intros Hok%reachable_ok. destruct w as [d toks]. cbn [fst snd].
  destruct (findOperatorByName (operator_name s) d) as [h|] eqn:Hf.
  - destruct (registry_ok_found _ _ _ _ Hok Hf) as (e & He & Hn & [? ? ? ? Hsch Hsn]).
    destruct (decide (def_count e = 0)) as [Hz|Hnz].
    + rewrite (registerDef_undefined _ _ _ _ Hf He Hz). cbn [result state fst snd].
      intros [= <-]. cbn [release].
      set (e1 := with_def_and_impl_count S (with_def_count S (with_op (registerSchema s) e))).
      assert (def_released e1 = e) as Hrel
        by (apply def_released_attached; [done | by apply Hsch]).
      rewrite (deregisterDef_run h (operator_name s) (stored h e1 d) e1 s);
        [|by erewrite lookup_stored, decide_True|done|done|simpl; lia..].
      rewrite Hrel, bool_decide_false by lia.
      cbn [result state fst snd]. rewrite stored_stored.
      split; [done|]. by apply same_registry_stored.
    + destruct (schema_ (op e)) as [s0|] eqn:Hs0; [|by destruct Hnz; apply Hsch].
      rewrite (registerDef_defined _ _ _ _ _ Hf He Hnz Hs0).
      destruct (schema_check s0 s); [done|]. cbn [result state fst snd].
      intros [= <-]. cbn [release].
      set (e1 := with_def_and_impl_count S (with_def_count S e)).
      assert (def_released e1 = e) as Hrel by by apply def_released_added.
      rewrite (deregisterDef_run h (operator_name s) (stored h e1 d) e1 s0);
        [|by erewrite lookup_stored, decide_True|done
         |by rewrite (Hsn s0 eq_refl)|simpl; lia..].
      rewrite Hrel, bool_decide_false by lia.
      cbn [result state fst snd]. rewrite stored_stored.
      split; [done|]. by apply same_registry_stored.
  - pose proof (registry_ok_fresh _ _ Hok) as Hfresh.
    rewrite (registerDef_fresh _ _ Hf Hfresh). cbn [result state fst snd].
    intros [= <-]. cbn [release].
    set (n := operator_name s).
    set (e1 := with_def_and_impl_count S (with_def_count S
                 (with_op (registerSchema s) (new_OperatorDef n)))).
    rewrite (deregisterDef_run (next_node_ d) n (created n e1 d) e1 s);
      [|by apply lookup_created|done|done|simpl; lia..].
    cbn. split; [done|].
    by apply same_registry_erased_created.
Qed.

(** X9.  A fallback that is registered and released again leaves no trace:
    in a reachable registry, for every backend tag and every
    [registerFallback] that returns, releasing the handle it returned
    succeeds and gives back the registry as it was, [backendsWithoutFallthrough_]
    included. *)
Theorem registerFallback_release_round_trip w k kern t :
  reachable w →
  backend_tag k →
  result (registerFallback k kern w.1) = inr t →
  result (release t (state (registerFallback k kern w.1))) = inr ()
  ∧ state (release t (state (registerFallback k kern w.1))) = w.1.
Proof.
  intros Hw Htag. pose proof (reachable_fallthrough_ok _ Hw k Htag) as Hft.
  destruct w as [d toks]. cbn [fst snd] in *.
  rewrite registerFallback_run.
  destruct (backendFallbackKernels_ d !! k) as [kern0|] eqn:Hk; [done|].
  cbn [result state fst snd]. intros [= <-]. cbn [release].
  rewrite deregisterFallback_run. cbn [result state fst snd].
  assert (k ∈ backendsWithoutFallthrough_ d) as Hin.
  { unfold has in Hft. destruct (decide (k ∈ backendsWithoutFallthrough_ d)); [done|].
    rewrite bool_decide_false in Hft by done.
    by destruct (Hft eq_refl) as (? & ? & _). }
  destruct d as [ops nn tab fb wf ls]. simpl in *.
  destruct (isFallthrough kern); simpl; rewrite lookup_insert_eq;
    (split; [done|]); unfold set_without_fallthrough, set_fallbacks; simpl;
    f_equal; try (by rewrite delete_insert_id); unfold add, remove.
  - apply set_eq. intros x. rewrite elem_of_union, elem_of_difference, elem_of_singleton.
    destruct (decide (x = k)) as [->|]; naive_solver.
  - apply set_eq. intros x. rewrite elem_of_union, elem_of_singleton. naive_solver.
Qed.

(** X10.  Listeners hear of a first definition after the schema is
    attached and before it is counted.  In a reachable registry,
    [registerDef] for a name without a definition returns, and it calls
    every listener once, in the order of [listeners_], under the lock; what
    a listener can then see is the operator with the schema attached, found
    by [findSchema], while its [def_count] is still 0: the counts are
    incremented after the callbacks. *)
Theorem registerDef_notifies_first_definition w s :
  reachable w →
  findSchema (operator_name s) w.1 = inr None →
  ∃ h seen e,
    result (registerDef s w.1) = inr (DeregisterDef h (operator_name s))
    ∧ events (registerDef s w.1) =
        Lock :: ((λ l, OnOperatorRegistered l h seen) <$> listeners_ w.1) ++ [Unlock]
    ∧ findSchema (operator_name s) seen = inr (Some h)
    ∧ lookup_node h (operators_ seen) = Some e
    ∧ schema_ (op e) = Some s
    ∧ def_count e = 0
    ∧ lookup_node h (operators_ (state (registerDef s w.1))) =
        Some (with_def_and_impl_count S (with_def_count S e)).
Proof.
  intros Hok%reachable_ok. destruct w as [d toks]. cbn [fst snd].
  unfold findSchema at 1.
  destruct (findOperatorByName (operator_name s) d) as [h|] eqn:Hf.
  - destruct (registry_ok_found _ _ _ _ Hok Hf) as (e & He & Hn & [? ? ? ? Hsch Hsn]).
    rewrite He. unfold hasSchema.
    destruct (schema_ (op e)) as [s0|] eqn:Hs0; [done|]. intros _.
    assert (def_count e = 0) as Hz by by apply Hsch.
    rewrite (registerDef_undefined _ _ _ _ Hf He Hz). cbn [result state events fst snd].
    exists h, (stored h (with_op (registerSchema s) e) d), (with_op (registerSchema s) e).
    split_and!; try done.
    + unfold findSchema, findOperatorByName in *. simpl. rewrite Hf.
      rewrite lookup_update_node, He. by case_nodes.
    + by erewrite lookup_stored, decide_True.
    + by erewrite lookup_stored, decide_True.
  - intros _.
    pose proof (registry_ok_fresh _ _ Hok) as Hfresh.
    rewrite (registerDef_fresh _ _ Hf Hfresh). cbn [result state events fst snd].
    eexists _, _, _. split_and!; [done|done|..].
    + unfold findSchema, findOperatorByName. simpl. rewrite lookup_insert_eq.
      by rewrite lookup_node_app, Hfresh, decide_True.
    + by apply lookup_created.
    + done.
    + done.
    + by rewrite lookup_created.
Qed.

(** ** The mutex *)

Lemma only_callbacks_ret {A} (a : A) : only_callbacks (mret a).
Proof. intros d. apply Forall_nil_2. Qed.

Lemma only_callbacks_throw {A} e : only_callbacks (@throw A e).
Proof. intros d. apply Forall_nil_2. Qed.

Lemma only_callbacks_get : only_callbacks get.
Proof. intros d. apply Forall_nil_2. Qed.

Lemma only_callbacks_modify f : only_callbacks (modify f).
Proof. intros d. apply Forall_nil_2. Qed.

Lemma only_callbacks_bind {A B} (m : M A) (f : A → M B) :
  only_callbacks m → (∀ a, only_callbacks (f a)) → only_callbacks (m ≫= f).
Proof.
  intros Hm Hf d. specialize (Hm d).
  unfold mbind, M_bind, events in *.
  destruct (m d) as [[[e|a] d1] ev1]; simpl in *; [done|].
  apply Forall_app. split; [done|]. apply (Hf a d1).
Qed.

Lemma only_callbacks_deref h : only_callbacks (deref h).
Proof.
  intros d. unfold deref.
  destruct (lookup_node h (operators_ d)); apply Forall_nil_2.
Qed.

Lemma only_callbacks_check c e : only_callbacks (TORCH_CHECK c e).
Proof. intros d. destruct c; apply Forall_nil_2. Qed.

Lemma only_callbacks_assert c : only_callbacks (TORCH_INTERNAL_ASSERT c).
Proof. intros d. destruct c; apply Forall_nil_2. Qed.

Lemma only_callbacks_for_each {A} (l : list A) body :
  (∀ x, only_callbacks (body x)) → only_callbacks (for_each l body).
Proof.
  intros Hb. induction l as [|x l IH]; simpl.
  - apply only_callbacks_ret.
  - apply only_callbacks_bind; auto.
Qed.

Lemma only_callbacks_callOnOperatorRegistered h :
  only_callbacks (callOnOperatorRegistered h).
Proof. intros d. apply Forall_fmap, Forall_forall. done. Qed.

Lemma only_callbacks_callOnOperatorDeregistered h :
  only_callbacks (callOnOperatorDeregistered h).
Proof. intros d. apply Forall_fmap, Forall_forall. done. Qed.

Lemma only_callbacks_onOperatorRegistered l h :
  only_callbacks (onOperatorRegistered l h).
Proof. intros d. by apply Forall_singleton. Qed.

Ltac unlocked :=
  repeat first
    [ progress (intros; cbv beta zeta)
    | match goal with
      | |- only_callbacks (_ ≫= _) => apply only_callbacks_bind
      | |- only_callbacks (mret _) => apply only_callbacks_ret
      | |- only_callbacks (throw _) => apply only_callbacks_throw
      | |- only_callbacks get => apply only_callbacks_get
      | |- only_callbacks (modify _) => apply only_callbacks_modify
      | |- only_callbacks (deref _) => apply only_callbacks_deref
      | |- only_callbacks (TORCH_CHECK _ _) => apply only_callbacks_check
      | |- only_callbacks (TORCH_INTERNAL_ASSERT _) => apply only_callbacks_assert
      | |- only_callbacks (for_each _ _) => apply only_callbacks_for_each
      | |- only_callbacks (callOnOperatorRegistered _) =>
          apply only_callbacks_callOnOperatorRegistered
      | |- only_callbacks (callOnOperatorDeregistered _) =>
          apply only_callbacks_callOnOperatorDeregistered
      | |- only_callbacks (onOperatorRegistered _ _) =>
          apply only_callbacks_onOperatorRegistered
      | |- only_callbacks (assign _ _) => unfold assign
      | |- only_callbacks (handle_schema _) => unfold handle_schema
      | |- only_callbacks (findOrRegisterName_ _) => unfold findOrRegisterName_
      | |- only_callbacks (checkSchemaCompatibility _ _) =>
          unfold checkSchemaCompatibility
      | |- only_callbacks (cleanup _ _) => unfold cleanup
      | |- only_callbacks (addListener _) => unfold addListener
      end
    | match goal with
      | |- only_callbacks (match ?x with _ => _ end) => destruct x
      end ].

Lemma locked_once {A} (body : M A) d :
  only_callbacks body → locks_once (events (lock_guard body d)).
Proof. intros Hb. exists (events (body d)). split; [done|apply Hb]. Qed.

(** X11.  The mutex is taken once.  [mutex_] is a [std::mutex], which a
    thread must not lock twice.  In every registry, each of the five
    functions that lock it takes it first, releases it last, also when it
    throws, and between the two only calls listeners: none of the functions
    they go through ([findOrRegisterName_], [checkSchemaCompatibility],
    [cleanup], the listener list) takes the mutex again. *)
Theorem mutex_taken_once d :
  (∀ s, locks_once (events (registerDef s d)))
  ∧ (∀ h n, locks_once (events (deregisterDef_ h n d)))
  ∧ (∀ n dk k inferred dbg, locks_once (events (registerImpl n dk k inferred dbg d)))
  ∧ (∀ h n dk kh, locks_once (events (deregisterImpl_ h n dk kh d)))
  ∧ (∀ l, locks_once (events (addRegistrationListener l d))).
Proof.
  split_and!; intros.
  - unfold registerDef. apply locked_once. unlocked.
  - unfold deregisterDef_. apply locked_once. unlocked.
  - unfold registerImpl. apply locked_once. unlocked.
  - unfold deregisterImpl_. apply locked_once. unlocked.
  - unfold addRegistrationListener. apply locked_once. unlocked.
Qed.

(** ** Nothing is left behind *)

(** X12.  Balanced use leaves nothing behind: a reachable registry in which
    every registration handle has been released holds no operator, no name
    in the lookup index and no fallback kernel. *)
Theorem released_registry_is_empty w :
  reachable w →
  w.2 = [] →
  operators_ w.1 = []
  ∧ operatorLookupTable_ w.1 = ∅
  ∧ backendFallbackKernels_ w.1 = ∅.
Proof.
  intros Hw Hnil. pose proof (reachable_ok _ Hw) as Hok.
  destruct (reachable_fallbacks_ok _ Hw) as [_ Hfb].
  destruct w as [d toks]. cbn [fst snd] in *. subst toks.
  assert (operators_ d = []) as Hops.
  { destruct (operators_ d) as [|[h e] l] eqn:Hl; [done|].
    assert (lookup_node h (operators_ d) = Some e) as He
      by (rewrite Hl; simpl; by rewrite decide_True).
    destruct (token_of_entry _ _ _ (ok_entries _ Hok h e He)) as (t & n & Ht & _).
    by apply elem_of_nil in Ht. }
  split_and!; [done|..]; apply map_empty; intros k.
  - destruct (operatorLookupTable_ d !! k) as [h|] eqn:Hk; [|done].
    apply (ok_table _ Hok) in Hk as (e & He & _). simpl in He.
    by rewrite Hops in He.
  - destruct (backendFallbackKernels_ d !! k) as [kern|] eqn:Hk; [|done].
    assert (k ∈ fallback_keys []) as Hin by (apply Hfb; eauto).
    by apply elem_of_nil in Hin.
Qed.
End Dispatcher.

(** * The theorems at sample registrations

    The registries below are built with eight dispatch keys and with kind 1
    standing for what [aliasAnalysis()] reports for an unspecified kind. *)

Lemma add_defined_reachable : reachable 8 1 (add_defined 8 1).
Proof. apply reachable_run, reachable_new. Qed.

Lemma mul_implemented_reachable : reachable 8 1 (mul_implemented 8 1).
Proof. apply reachable_run, add_defined_reachable. Qed.

Lemma autograd_fallthrough_reachable : reachable 8 1 (autograd_fallthrough 8 1).
Proof. apply reachable_run, add_defined_reachable. Qed.

(** Two definitions of [pkg::add] with the same schema give two handles;
    the operator is gone once both are released. *)
Example definition_registered_twice :
  let w := run 1 [RegisterDef add_schema; RegisterDef add_schema]
             (new_Dispatcher 8, []) in
  w.2 = [DeregisterDef 0 add_name; DeregisterDef 0 add_name]
  ∧ findOperatorByName add_name (run 1 [Release 0] w).1 = Some 0
  ∧ findOperatorByName add_name (run 1 [Release 0; Release 0] w).1 = None.
Proof. vm_compute. done. Qed.

(** Releasing the definition and keeping the kernel: the schema is gone,
    the operator is still found. *)
Example definition_released_before_kernel :
  let w := run 1 [Release 0] (add_defined 8 1) in
  w.2 = [DeregisterImpl 0 add_name (Some CPU) 0]
  ∧ findOperatorByName add_name w.1 = Some 0
  ∧ findSchema add_name w.1 = inr None.
Proof. vm_compute. done. Qed.

(** A second fallback for a tag is refused until the first is released. *)
Example fallback_registered_twice :
  let w := autograd_fallthrough 8 1 in
  result (registerFallback Autograd cpu_kernel w.1) = inl DuplicateFallback
  ∧ result (registerFallback Autograd cpu_kernel (run 1 [Release 2] w).1)
    = inr (DeregisterFallback Autograd).
Proof. vm_compute. done. Qed.

(** [pkg::add] is defined without a kind; defining it again with kind 3 is
    rejected and changes nothing. *)
Lemma registerDef_alias_analysis_rule_witness :
  result (registerDef 1 (add_schema_kind 3) (add_defined 8 1).1)
    = inl AliasAnalysisConflict
  ∧ state (registerDef 1 (add_schema_kind 3) (add_defined 8 1).1)
    = (add_defined 8 1).1.
Proof.
  edestruct (registerDef_alias_analysis_rule 1 (add_defined 8 1).1
               (add_schema_kind 3) add_schema 0) as (Hacc & _ & Hrej);
    [vm_compute; reflexivity..|].
  apply Hrej. simpl in Hacc. rewrite Hacc. discriminate.
Defined.

(** C1 as stated fails here: the existing schema of [pkg::add] has the
    default kind, the new one is structurally equal and specifies kind 3,
    and the registration is rejected; and when the new schema specifies
    kind 1 the registration is accepted but the stored schema keeps the
    default kind. *)
Lemma registerDef_post_facto_kind_rejected :
  findSchema add_name (add_defined 8 1).1 = inr (Some 0)
  ∧ schema_eqb add_schema (add_schema_kind 3) = true
  ∧ isDefaultAliasAnalysisKind add_schema = true
  ∧ isDefaultAliasAnalysisKind (add_schema_kind 3) = false
  ∧ result (registerDef 1 (add_schema_kind 3) (add_defined 8 1).1)
    = inl AliasAnalysisConflict
  ∧ result (registerDef 1 (add_schema_kind 1) (add_defined 8 1).1)
    = inr (DeregisterDef 0 add_name)
  ∧ (schema_ ∘ op <$>
       lookup_node 0
         (operators_ (state (registerDef 1 (add_schema_kind 1) (add_defined 8 1).1))))
    = Some (Some add_schema).
Proof. vm_compute. done. Qed.

(** A second definition of [pkg::add] with another signature, and a second
    fallback for [Autograd], are rejected and change nothing. *)
Lemma rejected_registration_leaves_registry_witness :
  state (registerDef 1 add_schema_float (autograd_fallthrough 8 1).1)
    = (autograd_fallthrough 8 1).1
  ∧ state (registerFallback Autograd cpu_kernel (autograd_fallthrough 8 1).1)
    = (autograd_fallthrough 8 1).1.
Proof.
  destruct (rejected_registration_leaves_registry 8 1 (autograd_fallthrough 8 1)
              add_schema_float Autograd cpu_kernel
              autograd_fallthrough_reachable) as [Hdef Hfallback].
  split.
  - apply (Hdef SchemaConflict). vm_compute. reflexivity.
  - apply (Hfallback DuplicateFallback). vm_compute. reflexivity.
Defined.

Lemma operator_erased_with_last_handle_witness :
  (∃ t h, t ∈ (add_defined 8 1).2 ∧ token_op t = Some (h, add_name)) ↔
  is_Some (findOperatorByName add_name (add_defined 8 1).1).
Proof.
  exact (proj1 (operator_erased_with_last_handle 8 1 (add_defined 8 1) add_name
                  add_defined_reachable)).
Defined.

(** A kernel for [pkg::mul], which has no definition. *)
Lemma findSchema_needs_definition_witness :
  ∃ h kh,
    result (registerImpl mul_name (Some CPU) cpu_kernel None "cpu"
              (add_defined 8 1).1)
      = inr (DeregisterImpl h mul_name (Some CPU) kh)
    ∧ findOperatorByName mul_name
        (state (registerImpl mul_name (Some CPU) cpu_kernel None "cpu"
                  (add_defined 8 1).1)) = Some h
    ∧ findSchema mul_name
        (state (registerImpl mul_name (Some CPU) cpu_kernel None "cpu"
                  (add_defined 8 1).1)) = inr None.
Proof.
  apply (findSchema_needs_definition 8 1 (add_defined 8 1) mul_name (Some CPU)
           cpu_kernel None "cpu" add_defined_reachable).
  vm_compute. reflexivity.
Defined.

(** After the definition handle of [pkg::add] has been released. *)
Lemma def_count_le_def_and_impl_count_witness :
  Forall (λ iter, def_count iter.2 ≤ def_and_impl_count iter.2)
    (operators_ (perform 1 (Release 0) (add_defined 8 1)).1).
Proof.
  apply Forall_forall. intros [h e] Hin.
  exact (proj2 (def_count_le_def_and_impl_count 8 1 (add_defined 8 1) (Release 0)
                  add_defined_reachable) h e Hin).
Defined.

(** The definition handle of [pkg::add] is the first handle alive. *)
Lemma listeners_called_before_schema_removed_witness :
  ∃ seen,
    result (deregisterDef_ 0 add_name (add_defined 8 1).1) = inr ()
    ∧ callbacks (events (deregisterDef_ 0 add_name (add_defined 8 1).1)) =
      (λ l, OnOperatorDeregistered l 0 seen) <$> listeners_ (add_defined 8 1).1
    ∧ findOperatorByName add_name seen = Some 0
    ∧ findSchema add_name seen = inr (Some 0)
    ∧ (∃ e1, lookup_node 0 (operators_ seen) = Some e1 ∧
             def_count e1 = 0 ∧ schema_ (op e1) = Some add_schema)
    ∧ findSchema add_name (state (deregisterDef_ 0 add_name (add_defined 8 1).1))
      = inr None.
Proof.
  edestruct (listeners_called_before_schema_removed 8 1 (add_defined 8 1) 0 0
               add_name) as (seen & Hseen);
    [exact add_defined_reachable | vm_compute; reflexivity..|].
  exists seen. exact Hseen.
Defined.

(** [pkg::add] is defined, [pkg::mul] has a kernel only: the new listener
    hears of [pkg::add] and is then the last of the listeners. *)
Lemma addRegistrationListener_replays_definitions_witness :
  callbacks (events (addRegistrationListener 1 (mul_implemented 8 1).1)) =
    (λ iter, OnOperatorRegistered 1 iter.1 (mul_implemented 8 1).1)
      <$> filter (λ iter, 0 < def_count iter.2) (operators_ (mul_implemented 8 1).1)
  ∧ listeners_ (state (addRegistrationListener 1 (mul_implemented 8 1).1)) =
      listeners_ (mul_implemented 8 1).1 ++ [1]
  ∧ announced (events (addRegistrationListener 1 (mul_implemented 8 1).1)) = [0]
  ∧ listeners_ (state (addRegistrationListener 1 (mul_implemented 8 1).1)) = [0; 1].
Proof.
  destruct (addRegistrationListener_replays_definitions 8 1
              (mul_implemented 8 1) 1 mul_implemented_reachable)
    as (_ & Hcalls & _ & _ & _ & Hlast & _).
  split_and!; [exact Hcalls | exact Hlast | vm_compute; reflexivity..].
Defined.

(** A pass-through fallback for [Autograd], registered and released; and
    a registry whose set lacks [Autograd] while the table has no kernel for
    it, which [checkInvariants] refuses. *)
Lemma fallthrough_backends_tracked_witness :
  has (backendsWithoutFallthrough_
         (state (registerFallback Autograd fallthrough_kernel (add_defined 8 1).1)))
    Autograd = false
  ∧ has (backendsWithoutFallthrough_
           (state (release (DeregisterFallback Autograd)
                     (state (registerFallback Autograd fallthrough_kernel
                               (add_defined 8 1).1)))))
      Autograd = true
  ∧ result (checkInvariants 8 (λ _, true) (add_defined 8 1).1) = inr ()
  ∧ result (checkInvariants 8 (λ _, true)
              (set_without_fallthrough (remove (FULL 8) Autograd) (add_defined 8 1).1))
    ≠ inr ()
  ∧ result (checkInvariants 8 (λ _, true)
              (set_without_fallthrough (remove (FULL 8) Autograd) (add_defined 8 1).1))
    = inl InternalAssert.
Proof.
  destruct (fallthrough_backends_tracked 8 1 (λ _, true) (add_defined 8 1)
              Autograd fallthrough_kernel add_defined_reachable)
    as (_ & (_ & Hrefused & Hpasses) & Hreg).
  destruct (Hreg eq_refl (DeregisterFallback Autograd)) as (_ & Hout & Hin);
    [vm_compute; reflexivity|].
  split_and!; [exact Hout | exact Hin | | |vm_compute; reflexivity].
  - apply Hpasses. done.
  - apply (Hrefused _ Autograd); [unfold backend_tag, Undefined, Autograd; lia|..];
      vm_compute; reflexivity.
Defined.

Lemma implementations_invisible_to_listeners_witness :
  callbacks (events (registerImpl mul_name (Some CPU) cpu_kernel None "cpu"
                       (add_defined 8 1).1)) = [].
Proof.
  exact (proj1 (implementations_invisible_to_listeners 8 1 (add_defined 8 1)
                  add_defined_reachable) mul_name (Some CPU) cpu_kernel None
           "cpu"%string).
Defined.

(** ** The further properties at the sample registrations *)

(** [pkg::add] with its definition handle and its kernel handle: one
    definition, one kernel, two registrations. *)
Lemma reference_counts_exact_witness :
  ∃ e, lookup_node 0 (operators_ (add_defined 8 1).1) = Some e
       ∧ (def_count e = length (def_names 0 (add_defined 8 1).2)
          ∧ length (kernels_ (op e)) = length (impl_keys 0 (add_defined 8 1).2)
          ∧ def_and_impl_count e =
              length (def_names 0 (add_defined 8 1).2)
              + length (impl_keys 0 (add_defined 8 1).2)
          ∧ (∀ t n, t ∈ (add_defined 8 1).2 → token_op t = Some (0, n) →
                    n = name_ (op e))).
Proof.
  eexists. split; [vm_compute; reflexivity|].
  apply (reference_counts_exact 8 1 (add_defined 8 1) 0);
    [exact add_defined_reachable | vm_compute; reflexivity].
Defined.

Lemma findSchema_iff_definition_alive_witness :
  (findSchema add_name (add_defined 8 1).1 = inr (Some 0)
   ↔ DeregisterDef 0 add_name ∈ (add_defined 8 1).2)
  ∧ (∃ r, findSchema add_name (add_defined 8 1).1 = inr r).
Proof.
  apply (findSchema_iff_definition_alive 8 1 (add_defined 8 1) add_name 0).
  exact add_defined_reachable.
Defined.

(** [pkg::mul] has a kernel and no definition: the lookup fails with the
    hint at the missing definition. *)
Lemma findSchemaOrThrow_diagnosis_witness :
  findSchemaOrThrow "pkg::mul" EmptyString (mul_implemented 8 1).1 =
    inl (CheckFailed
           (missing_schema "pkg::mul" EmptyString +:+
            " but we found an implementation; did you forget to def() the operator?"))
  ∧ (∃ t h, t ∈ (mul_implemented 8 1).2
            ∧ token_op t = Some (h, ("pkg::mul"%string, EmptyString)))
  ∧ (∀ h, DeregisterDef h ("pkg::mul"%string, EmptyString) ∉ (mul_implemented 8 1).2).
Proof.
  destruct (findSchemaOrThrow_diagnosis 8 1 (mul_implemented 8 1)
              "pkg::mul" EmptyString mul_implemented_reachable)
    as (_ & [Hfound _] & _).
  split; [vm_compute; reflexivity|].
  apply Hfound. vm_compute. reflexivity.
Defined.

Lemma operator_handle_stable_witness :
  findOperatorByName add_name (perform 1 (Release 0) (add_defined 8 1)).1 = Some 0
  ∨ findOperatorByName add_name (perform 1 (Release 0) (add_defined 8 1)).1 = None.
Proof.
  apply (operator_handle_stable 1 (Release 0) (add_defined 8 1) add_name 0).
  vm_compute. reflexivity.
Defined.

Lemma fallback_handles_exact_witness :
  (is_Some (backendFallbackKernels_ (autograd_fallthrough 8 1).1 !! Autograd)
   ↔ DeregisterFallback Autograd ∈ (autograd_fallthrough 8 1).2)
  ∧ NoDup (fallback_keys (autograd_fallthrough 8 1).2)
  ∧ (result (registerFallback Autograd cpu_kernel (autograd_fallthrough 8 1).1)
       = inl DuplicateFallback
     ↔ DeregisterFallback Autograd ∈ (autograd_fallthrough 8 1).2)
  ∧ (result (registerFallback Autograd cpu_kernel (autograd_fallthrough 8 1).1)
       = inr (DeregisterFallback Autograd)
     ↔ DeregisterFallback Autograd ∉ (autograd_fallthrough 8 1).2).
Proof.
  apply (fallback_handles_exact 8 1 (autograd_fallthrough 8 1) Autograd cpu_kernel).
  exact autograd_fallthrough_reachable.
Defined.

Lemma release_never_fails_witness :
  result (release (DeregisterFallback Autograd) (autograd_fallthrough 8 1).1) = inr ().
Proof.
  apply (release_never_fails 8 1 (autograd_fallthrough 8 1) 2);
    [exact autograd_fallthrough_reachable | vm_compute; reflexivity].
Defined.

(** A second definition of [pkg::add], released again. *)
Lemma registerDef_release_round_trip_witness :
  result (release (DeregisterDef 0 add_name)
            (state (registerDef 1 add_schema (add_defined 8 1).1))) = inr ()
  ∧ same_registry (add_defined 8 1).1
      (state (release (DeregisterDef 0 add_name)
                (state (registerDef 1 add_schema (add_defined 8 1).1)))).
Proof.
  apply (registerDef_release_round_trip 8 1 (add_defined 8 1) add_schema);
    [exact add_defined_reachable | vm_compute; reflexivity].
Defined.

(** A pass-through fallback for [Autograd], released again. *)
Lemma registerFallback_release_round_trip_witness :
  result (release (DeregisterFallback Autograd)
            (state (registerFallback Autograd fallthrough_kernel (add_defined 8 1).1)))
    = inr ()
  ∧ state (release (DeregisterFallback Autograd)
             (state (registerFallback Autograd fallthrough_kernel (add_defined 8 1).1)))
    = (add_defined 8 1).1.
Proof.
  apply (registerFallback_release_round_trip 8 1 (add_defined 8 1) Autograd
           fallthrough_kernel);
    [exact add_defined_reachable
    | unfold backend_tag, Undefined, Autograd; lia
    | vm_compute; reflexivity].
Defined.

(** The first definition of [pkg::mul], which has a kernel already. *)
Lemma registerDef_notifies_first_definition_witness :
  ∃ h seen e,
    result (registerDef 1 mul_schema (mul_implemented 8 1).1)
      = inr (DeregisterDef h (operator_name mul_schema))
    ∧ events (registerDef 1 mul_schema (mul_implemented 8 1).1) =
        Lock :: ((λ l, OnOperatorRegistered l h seen)
                   <$> listeners_ (mul_implemented 8 1).1) ++ [Unlock]
    ∧ findSchema (operator_name mul_schema) seen = inr (Some h)
    ∧ lookup_node h (operators_ seen) = Some e
    ∧ schema_ (op e) = Some mul_schema
    ∧ def_count e = 0
    ∧ lookup_node h
        (operators_ (state (registerDef 1 mul_schema (mul_implemented 8 1).1))) =
        Some (with_def_and_impl_count S (with_def_count S e)).
Proof.
  apply (registerDef_notifies_first_definition 8 1 (mul_implemented 8 1) mul_schema);
    [exact mul_implemented_reachable | vm_compute; reflexivity].
Defined.

(** [pkg::add] defined, given a kernel, and both handles released. *)
Lemma released_registry_is_empty_witness :
  operators_ (run 1 [Release 0; Release 0] (add_defined 8 1)).1 = []
  ∧ operatorLookupTable_ (run 1 [Release 0; Release 0] (add_defined 8 1)).1 = ∅
  ∧ backendFallbackKernels_ (run 1 [Release 0; Release 0] (add_defined 8 1)).1 = ∅.
Proof.
  apply (released_registry_is_empty 8 1 (run 1 [Release 0; Release 0] (add_defined 8 1)));
    [apply reachable_run, add_defined_reachable | vm_compute; reflexivity].
Defined.
